(** * An expirable LRU cache over an intrusive doubly linked ring

    A shallow embedding of [list.go] (the ring of [Element]s with a sentinel
    root) and of [lru.go] (the [Cache] built on it), with the properties of
    the cache proved on the embedding.

    Go pointers are addresses into finite maps, [nil] is [None], a nil
    dereference is a panic, and every function of the source is a
    computation in a state-and-panic monad over the memory it touches.

    Go's [int], [time.Time] and [time.Duration] are integers of [Z]: the
    counters of the source count cells of the memory and stay far from the
    ends of their 64 bits.  The key type has a decidable equality that is
    Leibniz equality, as [comparable] gives for every key but a floating
    point NaN.  The mutex of the cache is not modelled: a method is the body
    that runs under the lock, and the methods run one after the other. *)

From stdpp Require Import gmap list fin_maps.
From Stdlib Require Import ZArith Lia.

Local Open Scope Z_scope.

(** ** The monad: state passing, with [None] for a run that does not return
    normally (a panic on a nil dereference, or a loop that never ends). *)

Definition M (S A : Type) : Type := S → option (A * S).

Definition ret {S A : Type} (a : A) : M S A := λ s, Some (a, s).

Definition bind {S A B : Type} (m : M S A) (f : A → M S B) : M S B :=
  λ s, match m s with
       | Some (a, s') => f a s'
       | None => None
       end.

Definition panic {S A : Type} : M S A := λ _, None.

Definition gets {S A : Type} (f : S → A) : M S A := λ s, Some (f s, s).

Definition modify {S : Type} (f : S → S) : M S unit := λ s, Some (tt, f s).

(** Runs a computation on a component [get] of a larger state. *)
Definition zoom {S T A : Type} (get : T → S) (put : S → T → T) (m : M S A) : M T A :=
  λ t, match m (get t) with
       | Some (a, s') => Some (a, put s' t)
       | None => None
       end.

Declare Scope go_scope.
Delimit Scope go_scope with go.
Notation "'let*' x ':=' m 'in' k" := (bind m (λ x, k))
  (at level 10, x pattern, m at level 100, k at level 200) : go_scope.
Notation "m '>>' k" := (bind m (λ _, k))
  (at level 100, k at level 200, right associativity) : go_scope.

(** Pointers: an address or [nil]. *)
Abbreviation loc := positive.
Abbreviation ptr := (option loc).
Definition nil : ptr := None.

(** ** list.go *)

Module LinkedList.

Local Open Scope go_scope.

(** [Element]: the field [list] of the source is [list_] here ([list] is the
    type of lists), and [Value] is the pointer to the entry. *)
Record Element : Type := mkElement {
  next : ptr;
  prev : ptr;
  list_ : ptr;
  Value : ptr
}.

(** The memory of the list code.  A [List] struct at address [l] is its
    sentinel [root], the cell [elems !! l] (the root is the first field, so
    [&l.root] and [l] are the same address), and its counter [lens !! l]. *)
Record heap : Type := mkHeap {
  elems : gmap loc Element;
  lens : gmap loc Z
}.

Definition set_next (v : ptr) (c : Element) : Element :=
  mkElement v (prev c) (list_ c) (Value c).
Definition set_prev (v : ptr) (c : Element) : Element :=
  mkElement (next c) v (list_ c) (Value c).
Definition set_list (v : ptr) (c : Element) : Element :=
  mkElement (next c) (prev c) v (Value c).

(** [*e]: panics on nil. *)
Definition deref (e : ptr) : M heap Element :=
  λ h, match e with
       | Some a => match elems h !! a with
                   | Some c => Some (c, h)
                   | None => None
                   end
       | None => None
       end.

(** [e.f = v] through [upd]: panics on nil. *)
Definition store (upd : Element → Element) (e : ptr) : M heap unit :=
  λ h, match e with
       | Some a => match elems h !! a with
                   | Some c => Some (tt, mkHeap (<[a := upd c]> (elems h)) (lens h))
                   | None => None
                   end
       | None => None
       end.

Definition load {A : Type} (f : Element → A) (e : ptr) : M heap A :=
  let* c := deref e in ret (f c).

(** [l.len] and [l.len = n]. *)
Definition load_len (l : ptr) : M heap Z :=
  λ h, match l with
       | Some a => match lens h !! a with
                   | Some n => Some (n, h)
                   | None => None
                   end
       | None => None
       end.

Definition store_len (l : ptr) (n : Z) : M heap unit :=
  λ h, match l with
       | Some a => match lens h !! a with
                   | Some _ => Some (tt, mkHeap (elems h) (<[a := n]> (lens h)))
                   | None => None
                   end
       | None => None
       end.

(** [&l.root]: evaluating it on a nil [l] panics. *)
Definition root (l : ptr) : M heap ptr :=
  match l with
  | Some a => ret (Some a)
  | None => panic
  end.

(** [&Element{Value: v}]: a fresh cell. *)
Definition new_Element (v : ptr) : M heap ptr :=
  λ h, let a := fresh (dom (elems h)) in
       Some (Some a, mkHeap (<[a := mkElement nil nil nil v]> (elems h)) (lens h)).

(** [new(List)]: a fresh zero [List]. *)
Definition new_List : M heap ptr :=
  λ h, let a := fresh (dom (elems h)) in
       Some (Some a, mkHeap (<[a := mkElement nil nil nil nil]> (elems h))
                            (<[a := 0]> (lens h))).

Definition ptr_eqb (p q : ptr) : bool := bool_decide (p = q).

(** [func (e *Element) Next() *Element] *)
Definition Next (e : ptr) : M heap ptr :=
  let* p := load next e in
  let* l := load list_ e in
  if negb (ptr_eqb l nil) then
    let* r := root l in
    if negb (ptr_eqb p r) then ret p else ret nil
  else ret nil.

(** [func (e *Element) Prev() *Element] *)
Definition Prev (e : ptr) : M heap ptr :=
  let* p := load prev e in
  let* l := load list_ e in
  if negb (ptr_eqb l nil) then
    let* r := root l in
    if negb (ptr_eqb p r) then ret p else ret nil
  else ret nil.

(** [func (l *List) Init() *List] *)
Definition Init (l : ptr) : M heap ptr :=
  let* r := root l in
  store (set_next r) r >>
  store (set_prev r) r >>
  store_len l 0 >>
  ret l.

(** [func NewList() *List] *)
Definition NewList : M heap ptr :=
  let* l := new_List in Init l.

(** [func (l *List) Len() int] *)
Definition Len (l : ptr) : M heap Z := load_len l.

(** [func (l *List) Front() *Element] *)
Definition Front (l : ptr) : M heap ptr :=
  let* n := load_len l in
  if Z.eqb n 0 then ret nil
  else let* r := root l in load next r.

(** [func (l *List) Back() *Element] *)
Definition Back (l : ptr) : M heap ptr :=
  let* n := load_len l in
  if Z.eqb n 0 then ret nil
  else let* r := root l in load prev r.

(** [func (l *List) lazyInit()] *)
Definition lazyInit (l : ptr) : M heap unit :=
  let* r := root l in
  let* n := load next r in
  if ptr_eqb n nil then Init l >> ret tt else ret tt.

(** [func (l *List) insert(e, at *Element) *Element] *)
Definition insert (l e at_ : ptr) : M heap ptr :=
  store (set_prev at_) e >>
  let* n := load next at_ in
  store (set_next n) e >>
  let* p := load prev e in
  store (set_next e) p >>
  let* n := load next e in
  store (set_prev e) n >>
  store (set_list l) e >>
  let* k := load_len l in
  store_len l (k + 1) >>
  ret e.

(** [func (l *List) insertValue(v, at *Element) *Element] *)
Definition insertValue (l v at_ : ptr) : M heap ptr :=
  let* e := new_Element v in insert l e at_.

(** [func (l *List) remove(e *Element)] *)
Definition remove (l e : ptr) : M heap unit :=
  let* p := load prev e in
  let* n := load next e in
  store (set_next n) p >>
  let* n := load next e in
  let* p := load prev e in
  store (set_prev p) n >>
  store (set_next nil) e >>
  store (set_prev nil) e >>
  store (set_list nil) e >>
  let* k := load_len l in
  store_len l (k - 1).

(** [func (l *List) move(e, at *Element)] *)
Definition move (l e at_ : ptr) : M heap unit :=
  if ptr_eqb e at_ then ret tt
  else
    let* p := load prev e in
    let* n := load next e in
    store (set_next n) p >>
    let* n := load next e in
    let* p := load prev e in
    store (set_prev p) n >>
    store (set_prev at_) e >>
    let* n := load next at_ in
    store (set_next n) e >>
    let* p := load prev e in
    store (set_next e) p >>
    let* n := load next e in
    store (set_prev e) n.

(** [func (l *List) Remove(e *Element) any]: the result is [e.Value]. *)
Definition Remove (l e : ptr) : M heap ptr :=
  let* el := load list_ e in
  (if ptr_eqb el l then remove l e else ret tt) >>
  load Value e.

(** [func (l *List) PushFront(v) *Element] *)
Definition PushFront (l v : ptr) : M heap ptr :=
  lazyInit l >>
  let* r := root l in
  insertValue l v r.

(** [func (l *List) PushBack(v) *Element] *)
Definition PushBack (l v : ptr) : M heap ptr :=
  lazyInit l >>
  let* r := root l in
  let* b := load prev r in
  insertValue l v b.

(** [func (l *List) InsertBefore(v, mark *Element) *Element] *)
Definition InsertBefore (l v mark : ptr) : M heap ptr :=
  let* ml := load list_ mark in
  if negb (ptr_eqb ml l) then ret nil
  else let* p := load prev mark in insertValue l v p.

(** [func (l *List) InsertAfter(v, mark *Element) *Element] *)
Definition InsertAfter (l v mark : ptr) : M heap ptr :=
  let* ml := load list_ mark in
  if negb (ptr_eqb ml l) then ret nil
  else insertValue l v mark.

(** [func (l *List) MoveToFront(e *Element)] *)
Definition MoveToFront (l e : ptr) : M heap unit :=
  let* el := load list_ e in
  if negb (ptr_eqb el l) then ret tt
  else
    let* r := root l in
    let* f := load next r in
    if ptr_eqb f e then ret tt
    else move l e r.

(** [func (l *List) MoveToBack(e *Element)] *)
Definition MoveToBack (l e : ptr) : M heap unit :=
  let* el := load list_ e in
  if negb (ptr_eqb el l) then ret tt
  else
    let* r := root l in
    let* b := load prev r in
    if ptr_eqb b e then ret tt
    else
      let* b := load prev r in
      move l e b.

(** [func (l *List) MoveBefore(e, mark *Element)] *)
Definition MoveBefore (l e mark : ptr) : M heap unit :=
  let* el := load list_ e in
  if negb (ptr_eqb el l) then ret tt
  else if ptr_eqb e mark then ret tt
  else
    let* ml := load list_ mark in
    if negb (ptr_eqb ml l) then ret tt
    else let* p := load prev mark in move l e p.

(** [func (l *List) MoveAfter(e, mark *Element)] *)
Definition MoveAfter (l e mark : ptr) : M heap unit :=
  let* el := load list_ e in
  if negb (ptr_eqb el l) then ret tt
  else if ptr_eqb e mark then ret tt
  else
    let* ml := load list_ mark in
    if negb (ptr_eqb ml l) then ret tt
    else move l e mark.

(** The loop of [PushBackList]:
    [for i, e := other.Len(), other.Front(); i > 0; i, e = i-1, e.Next()]. *)
Fixpoint PushBackList_loop (i : nat) (l e : ptr) : M heap unit :=
  match i with
  | O => ret tt
  | S i' =>
      let* v := load Value e in
      let* r := root l in
      let* b := load prev r in
      insertValue l v b >>
      let* e' := Next e in
      PushBackList_loop i' l e'
  end.

(** [func (l *List) PushBackList(other *List)] *)
Definition PushBackList (l other : ptr) : M heap unit :=
  lazyInit l >>
  let* i := Len other in
  let* e := Front other in
  PushBackList_loop (Z.to_nat i) l e.

(** The loop of [PushFrontList]:
    [for i, e := other.Len(), other.Back(); i > 0; i, e = i-1, e.Prev()]. *)
Fixpoint PushFrontList_loop (i : nat) (l e : ptr) : M heap unit :=
  match i with
  | O => ret tt
  | S i' =>
      let* v := load Value e in
      let* r := root l in
      insertValue l v r >>
      let* e' := Prev e in
      PushFrontList_loop i' l e'
  end.

(** [func (l *List) PushFrontList(other *List)] *)
Definition PushFrontList (l other : ptr) : M heap unit :=
  lazyInit l >>
  let* i := Len other in
  let* e := Back other in
  PushFrontList_loop (Z.to_nat i) l e.

(** The iteration of the package comment:
    [for e := l.Front(); e != nil; e = e.Next()], collecting the elements.
    [Next] reads only the cell it stands on, so a walk that has not ended
    after as many steps as there are cells never ends: [fuel] is that
    number, and running out of it is the loop that does not return. *)
Fixpoint walk_loop (fuel : nat) (e : ptr) (acc : list loc) : M heap (list loc) :=
  match e with
  | None => ret acc
  | Some a =>
      match fuel with
      | O => panic
      | S fuel' => let* n := Next e in walk_loop fuel' n (acc ++ [a])
      end
  end.

Definition walk (l : ptr) : M heap (list loc) :=
  let* e := Front l in
  let* fuel := gets (λ h, size (elems h)) in
  walk_loop fuel e [].

End LinkedList.

(** ** lru.go *)

Module LRU.

Import LinkedList.
Local Open Scope go_scope.

(** [time.Time] and [time.Duration] are integers (nanoseconds), without the
    saturation of the time package at the ends of its range. *)
Definition Hour : Z := 3600 * 1000000000.
Definition Minute : Z := 60 * 1000000000.

(** [const noEvictionTTL = time.Hour * 24 * 365 * 10] *)
Definition noEvictionTTL : Z := Hour * 24 * 365 * 10.

Section cache.

(** [KT comparable], [VT any]; [zeroK] and [zeroV] are [*new(KT)] and
    [*new(VT)]. *)
Context {K : Type} `{Countable K} {V : Type}.
Variables (zeroK : K) (zeroV : V).

(** [expirableEntry] *)
Record expirableEntry : Type := mkEntry {
  key : K;
  value : V;
  expiresAt : Z
}.

(** [Cache]: [size] is [size_] here; [onEvicted] is [true] for a non-nil
    callback, whose calls are recorded in the world; the mutex and the
    [done] channel belong to the concurrent wrapper and are left out: every
    method below is the body that runs under the lock. *)
Record Cache : Type := mkCache {
  size_ : Z;
  purgeEvery : Z;
  ttl : Z;
  onEvicted : bool;
  items : gmap K ptr;
  evictList : ptr
}.

(** The world of the cache code: the memory of the list code, the entries
    behind the [Value] pointers, the clock (the successive readings of
    [time.Now()] and how many were taken), the calls made to [onEvicted] so
    far (oldest first), and the fields of the [Cache] under study. *)
Record world : Type := mkWorld {
  mem : heap;
  ents : gmap loc expirableEntry;
  clock : nat → Z;
  ticks : nat;
  evlog : list (K * V);
  cache : Cache
}.

Definition with_mem (h : heap) (w : world) : world :=
  mkWorld h (ents w) (clock w) (ticks w) (evlog w) (cache w).
Definition with_ents (m : gmap loc expirableEntry) (w : world) : world :=
  mkWorld (mem w) m (clock w) (ticks w) (evlog w) (cache w).
Definition with_cache (c : Cache) (w : world) : world :=
  mkWorld (mem w) (ents w) (clock w) (ticks w) (evlog w) c.
Definition with_items (m : gmap K ptr) (c : Cache) : Cache :=
  mkCache (size_ c) (purgeEvery c) (ttl c) (onEvicted c) m (evictList c).
Definition with_size (n : Z) (c : Cache) : Cache :=
  mkCache n (purgeEvery c) (ttl c) (onEvicted c) (items c) (evictList c).
Definition with_purgeEvery (n : Z) (c : Cache) : Cache :=
  mkCache (size_ c) n (ttl c) (onEvicted c) (items c) (evictList c).

Definition set_value (v : V) (en : expirableEntry) : expirableEntry :=
  mkEntry (key en) v (expiresAt en).
Definition set_expiresAt (t : Z) (en : expirableEntry) : expirableEntry :=
  mkEntry (key en) (value en) t.

(** A call of the list code on the memory of the world. *)
Definition in_mem {A : Type} (m : M heap A) : M world A := zoom mem with_mem m.

(** [time.Now()] *)
Definition Now : M world Z :=
  λ w, Some (clock w (ticks w),
             mkWorld (mem w) (ents w) (clock w) (S (ticks w)) (evlog w) (cache w)).

(** [t.After(u)] *)
Definition After (t u : Z) : bool := u <? t.

(** [*p] and [p.f = v] on an entry pointer, and [&expirableEntry{...}]. *)
Definition deref_entry (p : ptr) : M world expirableEntry :=
  λ w, match p with
       | Some a => match ents w !! a with
                   | Some en => Some (en, w)
                   | None => None
                   end
       | None => None
       end.

Definition store_entry (upd : expirableEntry → expirableEntry) (p : ptr) : M world unit :=
  λ w, match p with
       | Some a => match ents w !! a with
                   | Some en => Some (tt, with_ents (<[a := upd en]> (ents w)) w)
                   | None => None
                   end
       | None => None
       end.

Definition new_entry (en : expirableEntry) : M world ptr :=
  λ w, let a := fresh (dom (ents w)) in
       Some (Some a, with_ents (<[a := en]> (ents w)) w).

(** [c.items[k] = e] and [delete(c.items, k)] *)
Definition set_item (k : K) (e : ptr) : M world unit :=
  modify (λ w, with_cache (with_items (<[k := e]> (items (cache w))) (cache w)) w).
Definition delete_item (k : K) : M world unit :=
  modify (λ w, with_cache (with_items (delete k (items (cache w))) (cache w)) w).

(** [c.items[k]] as a value: the zero value [nil] when [k] is absent. *)
Definition item (c : Cache) (k : K) : ptr := default nil (items c !! k).

(** [c.onEvicted(k, v)] *)
Definition call_onEvicted (k : K) (v : V) : M world unit :=
  modify (λ w, mkWorld (mem w) (ents w) (clock w) (ticks w) (evlog w ++ [(k, v)]) (cache w)).

(** [func NewLRU(size, onEvict, ttl, purgeEvery) *Cache].  The goroutine it
    may start runs [deleteExpired] under the lock at every tick of its
    ticker: a [DeleteExpired] call between two calls of the user. *)
Definition NewLRU (size : Z) (onEvict : bool) (ttl purgeEvery : Z) : M world unit :=
  let size := if size <? 0 then 0 else size in
  let ttl := if ttl <=? 0 then noEvictionTTL else ttl in
  let* l := in_mem NewList in
  let res := mkCache size purgeEvery ttl onEvict ∅ l in
  let res :=
    if negb (ttl =? noEvictionTTL) && ((0 <? size) || (0 <? purgeEvery)) then
      if purgeEvery <=? 0 then with_purgeEvery (Minute * 5) res else res
    else res in
  modify (with_cache res).

(** Whether [NewLRU] started the sweeping goroutine for this cache. *)
Definition sweeping (c : Cache) : bool :=
  negb (ttl c =? noEvictionTTL) && ((0 <? size_ c) || (0 <? purgeEvery c)).

(** [func (c *Cache) removeElement(e *Element)] *)
Definition removeElement (e : ptr) : M world unit :=
  let* c := gets cache in
  in_mem (Remove (evictList c) e) >>
  let* kv := in_mem (load Value e) in
  let* en := deref_entry kv in
  delete_item (key en) >>
  let* c := gets cache in
  if onEvicted c then
    let* en := deref_entry kv in call_onEvicted (key en) (value en)
  else ret tt.

(** [func (c *Cache) removeOldest()] *)
Definition removeOldest : M world unit :=
  let* c := gets cache in
  let* ent := in_mem (Back (evictList c)) in
  if negb (ptr_eqb ent nil) then removeElement ent else ret tt.

(** [func (c *Cache) add(key, value, ttl) (evicted bool)] *)
Definition add (k : K) (v : V) (ttl : Z) : M world bool :=
  let* now := Now in
  let* c := gets cache in
  match items c !! k with
  | Some ent =>
      in_mem (MoveToFront (evictList c) ent) >>
      let* p := in_mem (load Value ent) in
      store_entry (set_value v) p >>
      let* p := in_mem (load Value ent) in
      store_entry (set_expiresAt (now + ttl)) p >>
      ret false
  | None =>
      let* ent := new_entry (mkEntry k v (now + ttl)) in
      let* entry := in_mem (PushFront (evictList c) ent) in
      set_item k entry >>
      let* c := gets cache in
      if (0 <? size_ c) && (size_ c <? Z.of_nat (size (items c))) then
        removeOldest >> ret true
      else ret false
  end.

(** [func (c *Cache) Add(key, value) (evicted bool)] *)
Definition Add (k : K) (v : V) : M world bool :=
  let* c := gets cache in add k v (ttl c).

(** [func (c *Cache) AddWithTTL(key, value, ttl) (evicted bool)] *)
Definition AddWithTTL (k : K) (v : V) (ttl : Z) : M world bool := add k v ttl.

(** [func (c *Cache) Get(key) (VT, bool)] *)
Definition Get (k : K) : M world (V * bool) :=
  let* c := gets cache in
  match items c !! k with
  | Some ent =>
      let* now := Now in
      let* p := in_mem (load Value ent) in
      let* en := deref_entry p in
      if After now (expiresAt en) then ret (zeroV, false)
      else
        in_mem (MoveToFront (evictList c) ent) >>
        let* p := in_mem (load Value ent) in
        let* en := deref_entry p in
        ret (value en, true)
  | None => ret (zeroV, false)
  end.

(** [func (c *Cache) Peek(key) (VT, bool)] *)
Definition Peek (k : K) : M world (V * bool) :=
  let* c := gets cache in
  match items c !! k with
  | Some ent =>
      let* now := Now in
      let* p := in_mem (load Value ent) in
      let* en := deref_entry p in
      if After now (expiresAt en) then ret (zeroV, false)
      else
        let* p := in_mem (load Value ent) in
        let* en := deref_entry p in
        ret (value en, true)
  | None => ret (zeroV, false)
  end.

(** [func (c *Cache) GetOldest() (key, value, ok)] *)
Definition GetOldest : M world (K * V * bool) :=
  let* c := gets cache in
  let* ent := in_mem (Back (evictList c)) in
  if negb (ptr_eqb ent nil) then
    let* kv := in_mem (load Value ent) in
    let* en := deref_entry kv in
    ret (key en, value en, true)
  else ret (zeroK, zeroV, false).

(** [func (c *Cache) Contains(key) (ok bool)] *)
Definition Contains (k : K) : M world bool :=
  let* c := gets cache in
  ret (bool_decide (is_Some (items c !! k))).

(** [func (c *Cache) Remove(key) bool] *)
Definition Remove (k : K) : M world bool :=
  let* c := gets cache in
  match items c !! k with
  | Some ent => removeElement ent >> ret true
  | None => ret false
  end.

(** [func (c *Cache) RemoveOldest() (key, value, ok)] *)
Definition RemoveOldest : M world (K * V * bool) :=
  let* c := gets cache in
  let* ent := in_mem (Back (evictList c)) in
  if negb (ptr_eqb ent nil) then
    removeElement ent >>
    let* kv := in_mem (load Value ent) in
    let* en := deref_entry kv in
    ret (key en, value en, true)
  else ret (zeroK, zeroV, false).

(** The loop of [keys]: [for ent := ...; ent != nil; ent = ent.Prev()],
    with the fuel of [walk_loop]. *)
Fixpoint keys_loop (fuel : nat) (ent : ptr) (acc : list K) : M world (list K) :=
  if ptr_eqb ent nil then ret acc
  else
    match fuel with
    | O => panic
    | S fuel' =>
        let* kv := in_mem (load Value ent) in
        let* en := deref_entry kv in
        let* ent' := in_mem (Prev ent) in
        keys_loop fuel' ent' (acc ++ [key en])
    end.

(** [func (c *Cache) keys() []KT] *)
Definition keys : M world (list K) :=
  let* c := gets cache in
  let* ent := in_mem (Back (evictList c)) in
  let* fuel := gets (λ w, size (elems (mem w))) in
  keys_loop fuel ent [].

(** [func (c *Cache) Keys() []KT] *)
Definition Keys : M world (list K) := keys.

(** The loop of [deleteExpired] over the slice returned by [keys]:
    [time.Now()] is read again for every key. *)
Fixpoint deleteExpired_loop (ks : list K) : M world unit :=
  match ks with
  | [] => ret tt
  | k :: ks' =>
      let* now := Now in
      let* c := gets cache in
      let* kv := in_mem (load Value (item c k)) in
      let* en := deref_entry kv in
      (if After now (expiresAt en) then
         let* c := gets cache in removeElement (item c k)
       else ret tt) >>
      deleteExpired_loop ks'
  end.

(** [func (c *Cache) deleteExpired()] *)
Definition deleteExpired : M world unit :=
  let* ks := keys in deleteExpired_loop ks.

(** [func (c *Cache) DeleteExpired()] *)
Definition DeleteExpired : M world unit := deleteExpired.

(** The loop of [Purge]: [for k, v := range c.items].  Go leaves the order
    of a map range open; the order here is that of [map_to_list], and what
    is proved of [Purge] does not depend on it. *)
Fixpoint Purge_loop (kvs : list (K * ptr)) : M world unit :=
  match kvs with
  | [] => ret tt
  | (k, v) :: kvs' =>
      let* c := gets cache in
      (if onEvicted c then
         let* p := in_mem (load Value v) in
         let* en := deref_entry p in
         call_onEvicted k (value en)
       else ret tt) >>
      delete_item k >>
      Purge_loop kvs'
  end.

(** [func (c *Cache) Purge()] *)
Definition Purge : M world unit :=
  let* c := gets cache in
  Purge_loop (map_to_list (items c)) >>
  let* c := gets cache in
  in_mem (Init (evictList c)) >>
  ret tt.

(** [func (c *Cache) Len() int] *)
Definition Len : M world Z :=
  let* c := gets cache in in_mem (LinkedList.Len (evictList c)).

(** [for i := 0; i < diff; i++ { body }] *)
Fixpoint times (n : nat) (body : M world unit) : M world unit :=
  match n with
  | O => ret tt
  | S n' => body >> times n' body
  end.

(** [func (c *Cache) Resize(size int) (evicted int)] *)
Definition Resize (size : Z) : M world Z :=
  if size <=? 0 then ret 0
  else
    let* c := gets cache in
    let* n := in_mem (LinkedList.Len (evictList c)) in
    let diff := if n - size <? 0 then 0 else n - size in
    times (Z.to_nat diff) removeOldest >>
    modify (λ w, with_cache (with_size size (cache w)) w) >>
    ret diff.

End cache.

End LRU.

(** * Specifications

    The vocabulary of the proofs: what it means for the memory to hold a
    list, for a world to hold a cache, and what the calls of a user are. *)

Import LinkedList.
Import LRU.
Local Open Scope go_scope.

(** ** The ring in the memory *)

(** A field of the cell at an address. *)
Definition fld {A : Type} (f : Element → A) (m : gmap loc Element) (a : loc) : option A :=
  f <$> m !! a.

(** [a] and [b] are neighbours: [a.next == b] and [b.prev == a]. *)
Definition linked (m : gmap loc Element) (a b : loc) : Prop :=
  fld next m a = Some (Some b) ∧ fld prev m b = Some (Some a).

Fixpoint chain (m : gmap loc Element) (q : list loc) : Prop :=
  match q with
  | a :: q' => match q' with
               | b :: _ => linked m a b ∧ chain m q'
               | [] => True
               end
  | [] => True
  end.

(** The [List] at [l] holds the elements [ls], front to back: the ring goes
    from the root through [ls] back to the root, its cells are distinct,
    every element points to [l], and [l.len] is the number of elements. *)
Definition is_list (h : heap) (l : loc) (ls : list loc) : Prop :=
  NoDup (l :: ls) ∧
  chain (elems h) (l :: ls ++ [l]) ∧
  Forall (λ a, fld list_ (elems h) a = Some (Some l)) ls ∧
  lens h !! l = Some (Z.of_nat (length ls)).

Definition upd_elem (upd : Element → Element) (a : loc) (h : heap) : heap :=
  mkHeap (alter upd a (elems h)) (lens h).

(** The cells after [e.prev.next = e.next; e.next.prev = e.prev], for an
    element between [p] and [n]. *)
Definition unlinked (p n : loc) (m : gmap loc Element) : gmap loc Element :=
  alter (set_prev (Some p)) n (alter (set_next (Some n)) p m).

(** The cells after
    [e.prev = a; e.next = a.next; e.prev.next = e; e.next.prev = e],
    for [a] followed by [f]. *)
Definition linked_in (a e f : loc) (m : gmap loc Element) : gmap loc Element :=
  alter (set_prev (Some e)) f
    (alter (set_next (Some e)) a
       (alter (set_next (Some f)) e (alter (set_prev (Some a)) e m))).

(** ** The sweep *)

(** What a sweep that starts at reading [t] of the clock keeps and reaps of
    the entries [os], oldest first: the [i]-th one meets reading [t + i]. *)
Fixpoint kept {A : Type} (exp : A → Z) (clk : nat → Z) (t : nat) (os : list A) : list A :=
  match os with
  | [] => []
  | o :: os' =>
      if After (clk t) (exp o) then kept exp clk (S t) os'
      else o :: kept exp clk (S t) os'
  end.

Fixpoint reaped {A : Type} (exp : A → Z) (clk : nat → Z) (t : nat) (os : list A) : list A :=
  match os with
  | [] => []
  | o :: os' =>
      if After (clk t) (exp o) then o :: reaped exp clk (S t) os'
      else reaped exp clk (S t) os'
  end.

(** ** The cache in the world *)

Section spec.

Context {K : Type} `{Countable K} {V : Type}.
Variables (zeroK : K) (zeroV : V).

Local Abbreviation entry := (expirableEntry (K:=K) (V:=V)).
Local Abbreviation world := (world (K:=K) (V:=V)).

(** A cell of the cache: the address of the element, the address of its
    entry, and the entry. *)
Local Abbreviation cell := (loc * loc * entry)%type.

Definition c_elem (c : cell) : loc := c.1.1.
Definition c_ptr (c : cell) : loc := c.1.2.
Definition c_entry (c : cell) : entry := c.2.
Definition c_exp (c : cell) : Z := expiresAt (c_entry c).

Definition keys_of (cs : list cell) : list K := key <$> (c_entry <$> cs).

Definition cell_ok (w : world) (c : cell) : Prop :=
  fld Value (elems (mem w)) (c_elem c) = Some (Some (c_ptr c)) ∧
  ents w !! c_ptr c = Some (c_entry c).

Definition index (cs : list cell) : list (K * ptr) :=
  (λ c, (key (c_entry c), Some (c_elem c))) <$> cs.

(** The world holds the cache made of the cells [cs], most recently used
    first: the eviction list holds their elements in that order, each
    element points to its own entry, the keys are distinct, and the map
    sends each key to its element and nothing else. *)
Definition rep_cells (w : world) (cs : list cell) : Prop :=
  ∃ l, evictList (cache w) = Some l ∧
    is_list (mem w) l (c_elem <$> cs) ∧
    NoDup (c_ptr <$> cs) ∧
    Forall (cell_ok w) cs ∧
    NoDup ((index cs).*1) ∧
    items (cache w) = list_to_map (index cs).

(** What most calls leave alone. *)
Definition cfg (w : world) : Z * Z * Z * bool * ptr * (nat → Z) :=
  (size_ (cache w), purgeEvery (cache w), ttl (cache w), onEvicted (cache w),
   evictList (cache w), clock w).

(** The calls of [onEvicted] for one entry, and for a run of entries. *)
Definition fired (on : bool) (en : entry) : list (K * V) :=
  if on then [(key en, value en)] else [].

Definition fired_all (on : bool) (es : list entry) : list (K * V) :=
  if on then (λ en, (key en, value en)) <$> es else [].

(** [c.size > 0 && len(c.items) > c.size] for a map of [n] keys. *)
Definition over_capacity (w : world) (n : nat) : bool :=
  (0 <? size_ (cache w)) && (size_ (cache w) <? Z.of_nat n).

(** The world after one more reading of the clock. *)
Definition ticked (w : world) : world :=
  mkWorld (mem w) (ents w) (clock w) (S (ticks w)) (evlog w) (cache w).

(** The entry behind an element pointer, read through the memory. *)
Definition entry_at (w : world) (e : ptr) : option entry :=
  match e with
  | Some a =>
      match fld Value (elems (mem w)) a with
      | Some (Some p) => ents w !! p
      | _ => None
      end
  | None => None
  end.

(** The entry stored under a key, and the key of the entry of a node. *)
Definition entry_of (w : world) (k : K) : option entry :=
  match items (cache w) !! k with
  | Some e => entry_at w e
  | None => None
  end.

Definition node_key (w : world) (a : loc) : option K := key <$> entry_at w (Some a).

(** The call of [onEvicted] for the entry stored under a key, and the one
    [Purge] makes for a pair of its range over the map. *)
Definition event_of (w : world) (k : K) : option (K * V) :=
  (λ en, (k, value en)) <$> entry_of w k.

Definition purge_event (w : world) (kv : K * ptr) : option (K * V) :=
  match entry_at w kv.2 with
  | Some en => Some (kv.1, value en)
  | None => None
  end.

(** ** The calls *)

(** The calls a user can make on a cache; the sweeping goroutine makes
    [OpDeleteExpired]. *)
Inductive op : Type :=
  | OpAdd (k : K) (v : V)
  | OpAddWithTTL (k : K) (v : V) (t : Z)
  | OpGet (k : K)
  | OpPeek (k : K)
  | OpGetOldest
  | OpContains (k : K)
  | OpRemove (k : K)
  | OpRemoveOldest
  | OpKeys
  | OpPurge
  | OpDeleteExpired
  | OpLen
  | OpResize (n : Z).

Definition exec (o : op) : M world unit :=
  match o with
  | OpAdd k v => Add k v >> ret tt
  | OpAddWithTTL k v t => AddWithTTL k v t >> ret tt
  | OpGet k => Get zeroV k >> ret tt
  | OpPeek k => Peek zeroV k >> ret tt
  | OpGetOldest => GetOldest zeroK zeroV >> ret tt
  | OpContains k => Contains k >> ret tt
  | OpRemove k => LRU.Remove k >> ret tt
  | OpRemoveOldest => RemoveOldest zeroK zeroV >> ret tt
  | OpKeys => Keys >> ret tt
  | OpPurge => Purge
  | OpDeleteExpired => DeleteExpired
  | OpLen => LRU.Len >> ret tt
  | OpResize n => Resize n >> ret tt
  end.

Fixpoint exec_all (os : list op) : M world unit :=
  match os with
  | [] => ret tt
  | o :: os' => exec o >> exec_all os'
  end.

(** [w] is the state of a cache built by [NewLRU cap on ttl0 pe] in the
    world [w0] and then used through the calls [os]. *)
Definition reached_from (w0 : world) (cap : Z) (on : bool) (ttl0 pe : Z)
    (os : list op) (w : world) : Prop :=
  (NewLRU cap on ttl0 pe >> exec_all os) w0 = Some (tt, w).

Definition reachable (w : world) : Prop :=
  ∃ w0 cap on ttl0 pe os, reached_from w0 cap on ttl0 pe os w.

(** A bounded cache holds at most its capacity. *)
Definition cap_ok (w : world) (cs : list cell) : Prop :=
  0 < size_ (cache w) → Z.of_nat (length cs) ≤ size_ (cache w).

(** What a call does to the cells: [stay] are kept (perhaps reordered, and one
    of them perhaps refreshed under its key), [gone] leave, and at most one
    cell is new. *)
Definition moved (cs cs' stay gone : list cell) : Prop :=
  cs ≡ₚ stay ++ gone ∧
  (keys_of cs' ≡ₚ keys_of stay ∨
   ∃ k, k ∉ keys_of cs ∧ keys_of cs' ≡ₚ k :: keys_of stay).

Definition step_ok (w : world) (cs : list cell) (w' : world) (cs' : list cell) : Prop :=
  rep_cells w' cs' ∧ cap_ok w' cs' ∧
  (∃ evs stay gone,
      evlog w' = evlog w ++ evs ∧
      evs ≡ₚ fired_all (onEvicted (cache w)) (c_entry <$> gone) ∧
      moved cs cs' stay gone) ∧
  onEvicted (cache w') = onEvicted (cache w) ∧ clock w' = clock w ∧
  (0 < size_ (cache w) → 0 < size_ (cache w')).

(** The three ways [add k v t] can go on the cells [cs]: the key is there and
    its cell is refreshed and moved to the front; the key is new and fits;
    the key is new and the cell at the back is evicted. *)
Definition add_outcome (w : world) (cs : list cell) (k : K) (v : V) (t : Z)
    (b : bool) (w' : world) (cs' : list cell) : Prop :=
  let en := mkEntry k v (clock w (ticks w) + t) in
  (∃ xs c ys, cs = xs ++ c :: ys ∧ key (c_entry c) = k ∧ b = false ∧
     cs' = (c_elem c, c_ptr c, en) :: xs ++ ys ∧ evlog w' = evlog w) ∨
  (k ∉ keys_of cs ∧ b = false ∧ (∃ a p, cs' = (a, p, en) :: cs) ∧ evlog w' = evlog w ∧
     ¬ (0 < size_ (cache w) < Z.of_nat (S (length cs)))) ∨
  (k ∉ keys_of cs ∧ b = true ∧
     (∃ a p cs0 cl, cs = cs0 ++ [cl] ∧ cs' = (a, p, en) :: cs0 ∧
        evlog w' = evlog w ++ fired (onEvicted (cache w)) (c_entry cl)) ∧
     0 < size_ (cache w) < Z.of_nat (S (length cs))).

(** The cache holds the keys [ks], oldest first: the world holds cells
    whose keys, from the back of the eviction list to its front, are [ks]. *)
Definition holds_keys (w : world) (ks : list K) : Prop :=
  ∃ cs, rep_cells w cs ∧ ks = reverse (keys_of cs).

(** The sweep as the spec words it: [w'] is what is left of [w] when exactly
    the entries that had expired at the time of the call, the reading
    [clock w (ticks w)], are removed. *)
Definition swept_as_of_call (w w' : world) : Prop :=
  ∀ k en, entry_of w k = Some en →
    (items (cache w') !! k = None ↔ After (clock w (ticks w)) (expiresAt en) = true).

End spec.

(** ** Examples

    A cache of naturals in an empty world whose clock reads 0, 1, 2, ...,
    and a memory with two lists of one element each. *)

Definition ex_world : LRU.world (K:=nat) (V:=nat) :=
  mkWorld (mkHeap ∅ ∅) ∅ (λ n, Z.of_nat n) 0 [] (mkCache 0 0 0 false ∅ nil).

Definition ex_run (cap : Z) (on : bool) (ttl0 pe : Z) (os : list (op (K:=nat) (V:=nat))) :
    LRU.world (K:=nat) (V:=nat) :=
  match (NewLRU cap on ttl0 pe >> exec_all 0%nat 0%nat os) ex_world with
  | Some (_, w) => w
  | None => ex_world
  end.

Definition ex_ops : list (op (K:=nat) (V:=nat)) :=
  [OpAdd 1%nat 10%nat; OpAdd 2%nat 20%nat; OpGet 1%nat; OpAdd 3%nat 30%nat].

(** Capacity 2, keys 1 and 3 left, key 2 evicted. *)
Definition ex_cache : LRU.world (K:=nat) (V:=nat) := ex_run 2 true 0 0 ex_ops.

Definition ex_stale_ops : list (op (K:=nat) (V:=nat)) :=
  [OpAddWithTTL 1%nat 10%nat (-5); OpAdd 2%nat 20%nat].

(** Key 1 stored with an expiry in the past. *)
Definition ex_stale : LRU.world (K:=nat) (V:=nat) := ex_run 2 true 0 0 ex_stale_ops.

(** Two keys that expire at the same time, 2, in a cache whose clock reads 2
    next; and that cache after a sweep. *)
Definition ex_twins_ops : list (op (K:=nat) (V:=nat)) :=
  [OpAddWithTTL 1%nat 10%nat 2; OpAddWithTTL 2%nat 20%nat 1].

Definition ex_twins : LRU.world (K:=nat) (V:=nat) := ex_run 2 true 0 0 ex_twins_ops.

Definition ex_twins_swept : LRU.world (K:=nat) (V:=nat) :=
  match DeleteExpired ex_twins with
  | Some (_, w) => w
  | None => ex_twins
  end.

(** The lists at 1 and 2, with the elements 4 and 3. *)
Definition ex_heap : heap :=
  match (let* l1 := NewList in
         let* l2 := NewList in
         PushFront l2 nil >> PushFront l1 nil) (mkHeap ∅ ∅) with
  | Some (_, h) => h
  | None => mkHeap ∅ ∅
  end.

(** * Proofs

    ** The list code *)

Section list_facts.

Section fld.

Context {A : Type} (f : Element → A).

Implicit Types (m : gmap loc Element) (a x : loc) (upd : Element → Element).

Lemma fld_alter_ne m upd a x : x ≠ a → fld f (alter upd a m) x = fld f m x.
Proof. intros Hne. unfold fld. by rewrite lookup_alter_ne. Qed.

Lemma fld_alter_same m upd a x :
  (∀ c, f (upd c) = f c) → fld f (alter upd a m) x = fld f m x.
Proof.
  intros Hf. unfold fld. destruct (decide (x = a)) as [->|Hne].
  - rewrite lookup_alter_eq. destruct (m !! a); simpl; [by rewrite Hf | done].
  - by rewrite lookup_alter_ne.
Qed.

Lemma fld_alter_eq m upd a v :
  is_Some (m !! a) → (∀ c, f (upd c) = v) → fld f (alter upd a m) a = Some v.
Proof.
  intros [c Hc] Hf. unfold fld. rewrite lookup_alter_eq, Hc. simpl. by rewrite Hf.
Qed.

Lemma fld_is_Some m a v : fld f m a = Some v → is_Some (m !! a).
Proof. unfold fld. destruct (m !! a); [eauto | done]. Qed.

Lemma fld_insert_eq m a c : fld f (<[a := c]> m) a = Some (f c).
Proof. unfold fld. by rewrite lookup_insert_eq. Qed.

Lemma fld_insert_ne m a x c : x ≠ a → fld f (<[a := c]> m) x = fld f m x.
Proof. intros. unfold fld. by rewrite lookup_insert_ne. Qed.

End fld.

Lemma is_Some_alter (m : gmap loc Element) upd a x :
  is_Some (alter upd a m !! x) ↔ is_Some (m !! x).
Proof.
  destruct (decide (x = a)) as [->|Hne].
  - rewrite lookup_alter_eq. by rewrite fmap_is_Some.
  - by rewrite lookup_alter_ne.
Qed.

Lemma load_run {A : Type} (f : Element → A) h a v :
  fld f (elems h) a = Some v → load f (Some a) h = Some (v, h).
Proof.
  unfold fld, load, bind, deref, ret. destruct (elems h !! a); simpl; congruence.
Qed.

Lemma store_run upd h a :
  is_Some (elems h !! a) → store upd (Some a) h = Some (tt, upd_elem upd a h).
Proof.
  intros [c Hc]. unfold store, upd_elem. rewrite Hc. do 3 f_equal.
  apply map_eq. intros x. destruct (decide (x = a)) as [->|Hne].
  - by rewrite lookup_insert_eq, lookup_alter_eq, Hc.
  - by rewrite lookup_insert_ne, lookup_alter_ne.
Qed.

Lemma chain_cons m a b q : chain m (a :: b :: q) ↔ linked m a b ∧ chain m (b :: q).
Proof. done. Qed.

Lemma chain_app m xs b ys :
  chain m (xs ++ b :: ys) ↔ chain m (xs ++ [b]) ∧ chain m (b :: ys).
Proof.
  induction xs as [|a xs IH]; [simpl; tauto|].
  destruct xs as [|a' xs]; simpl in *; tauto.
Qed.

Lemma chain_frame m m' q :
  (∀ x, x ∈ removelast q → fld next m' x = fld next m x) →
  (∀ x, x ∈ tail q → fld prev m' x = fld prev m x) →
  chain m q → chain m' q.
Proof.
  induction q as [|a q IH]; [done|].
  destruct q as [|b q]; [done|].
  intros Hn Hp [[H1 H2] Hc]. split.
  - split.
    + rewrite Hn; [done|]. simpl. destruct q; apply list_elem_of_here.
    + rewrite Hp; [done|]. simpl. apply list_elem_of_here.
  - apply IH; [| |done].
    + intros x Hx. apply Hn. simpl in *. destruct q; [by apply elem_of_nil in Hx|].
      by apply list_elem_of_further.
    + intros x Hx. apply Hp. simpl in *. by apply list_elem_of_further.
Qed.

Global Arguments chain : simpl never.

Lemma elem_of_removelast {A : Type} (x : A) (q : list A) : x ∈ removelast q → x ∈ q.
Proof.
  induction q as [|a q IH]; [done|]. simpl. destruct q as [|b q].
  - intros Hx. by apply elem_of_nil in Hx.
  - intros [->|Hx]%elem_of_cons; [apply list_elem_of_here|].
    apply list_elem_of_further. by apply IH.
Qed.

Lemma chain_unlink m pre p e n post :
  chain m (pre ++ p :: e :: n :: post) →
  p ∉ pre → p ∉ removelast (n :: post) → n ∉ tail (pre ++ [p]) → n ∉ post →
  chain (unlinked p n m) (pre ++ p :: n :: post).
Proof.
  intros Hc Hp1 Hp2 Hn1 Hn2.
  apply chain_app in Hc as [Hpre Hc].
  apply chain_cons in Hc as [[Hpe _] Hc].
  apply chain_cons in Hc as [[_ Hen] Hpost].
  apply chain_app. split; [|apply chain_cons; split; [split|]].
  - eapply chain_frame; [| |exact Hpre]; intros x Hx; unfold unlinked.
    + rewrite removelast_last in Hx.
      rewrite fld_alter_same by done. apply fld_alter_ne. congruence.
    + rewrite fld_alter_ne by congruence. by apply fld_alter_same.
  - unfold unlinked. rewrite fld_alter_same by done.
    apply fld_alter_eq; [by eapply fld_is_Some|done].
  - unfold unlinked. apply fld_alter_eq; [|done].
    apply is_Some_alter. by eapply fld_is_Some.
  - eapply chain_frame; [| |exact Hpost]; intros x Hx; unfold unlinked.
    + rewrite fld_alter_same by done. apply fld_alter_ne. congruence.
    + rewrite fld_alter_ne by (simpl in Hx; congruence). by apply fld_alter_same.
Qed.

Lemma chain_link m a e f post :
  chain m (a :: f :: post) →
  is_Some (m !! e) → e ≠ a → e ∉ f :: post →
  a ∉ removelast (f :: post) → f ∉ post →
  chain (linked_in a e f m) (a :: e :: f :: post).
Proof.
  intros Hc He Hea Hef Ha Hf.
  apply chain_cons in Hc as [[Haf Hfa] Hpost].
  apply not_elem_of_cons in Hef as [Hef Hep].
  assert (is_Some (m !! a)) by (by eapply fld_is_Some).
  assert (is_Some (m !! f)) by (by eapply fld_is_Some).
  unfold linked_in.
  apply chain_cons; split; [split|apply chain_cons; split; [split|]].
  - rewrite fld_alter_same by done. apply fld_alter_eq; [|done].
    by rewrite !is_Some_alter.
  - destruct (decide (e = f)); [done|].
    rewrite fld_alter_ne by done. rewrite fld_alter_same by done.
    rewrite fld_alter_same by done. by apply fld_alter_eq.
  - rewrite fld_alter_same by done. rewrite fld_alter_ne by done.
    apply fld_alter_eq; [|done]. by rewrite is_Some_alter.
  - apply fld_alter_eq; [|done]. by rewrite !is_Some_alter.
  - eapply chain_frame; [| |exact Hpost]; intros x Hx.
    + rewrite fld_alter_same by done.
      rewrite fld_alter_ne by congruence.
      rewrite fld_alter_ne; [by apply fld_alter_same|].
      intros ->. apply elem_of_removelast in Hx.
      apply elem_of_cons in Hx as [?|?]; done.
    + simpl in Hx.
      rewrite fld_alter_ne by congruence. rewrite fld_alter_same by done.
      rewrite fld_alter_same by done. apply fld_alter_ne. congruence.
Qed.

Ltac fld_simpl :=
  simpl;
  repeat first
    [ rewrite fld_alter_same by done
    | rewrite fld_alter_ne by congruence
    | rewrite is_Some_alter ].

Ltac run_load :=
  erewrite load_run;
  [|fld_simpl;
    first [eassumption
          | apply fld_alter_eq; [fld_simpl; eassumption | intros; simpl; reflexivity]]].

Ltac run_store :=
  rewrite store_run; [|fld_simpl; eassumption].

Lemma load_len_run h l k : lens h !! l = Some k → load_len (Some l) h = Some (k, h).
Proof. intros Hk. unfold load_len. by rewrite Hk. Qed.

Lemma store_len_run h l k :
  is_Some (lens h !! l) →
  store_len (Some l) k h = Some (tt, mkHeap (elems h) (<[l := k]> (lens h))).
Proof. intros [k' Hk]. unfold store_len. by rewrite Hk. Qed.

Lemma remove_run h l e p n k :
  fld prev (elems h) e = Some (Some p) →
  fld next (elems h) e = Some (Some n) →
  e ≠ p → e ≠ n →
  is_Some (elems h !! p) → is_Some (elems h !! n) →
  lens h !! l = Some k →
  remove (Some l) (Some e) h =
    Some (tt, mkHeap (alter (set_list nil) e (alter (set_prev nil) e
                        (alter (set_next nil) e (unlinked p n (elems h)))))
                     (<[l := k - 1]> (lens h))).
Proof.
  intros Hp Hn Hep Hen Hap Han Hk.
  assert (is_Some (elems h !! e)) by (by eapply fld_is_Some).
  unfold remove, bind.
  run_load. run_load. run_store. run_load. run_load. run_store.
  run_store. run_store. run_store.
  erewrite load_len_run by (simpl; eassumption).
  rewrite store_len_run by (simpl; eauto). done.
Qed.

Lemma move_run h l e a p n f :
  e ≠ a →
  fld prev (elems h) e = Some (Some p) →
  fld next (elems h) e = Some (Some n) →
  e ≠ p → e ≠ n →
  is_Some (elems h !! p) → is_Some (elems h !! n) →
  fld next (unlinked p n (elems h)) a = Some (Some f) →
  is_Some (elems h !! f) →
  move l (Some e) (Some a) h =
    Some (tt, mkHeap (linked_in a e f (unlinked p n (elems h))) (lens h)).
Proof.
  intros Hea Hp Hn Hep Hen Hap Han Hf Haf.
  assert (is_Some (elems h !! e)) by (by eapply fld_is_Some).
  assert (is_Some (elems h !! a)).
  { apply fld_is_Some in Hf. unfold unlinked in Hf. by rewrite !is_Some_alter in Hf. }
  unfold move. unfold ptr_eqb. rewrite bool_decide_eq_false_2 by congruence.
  unfold bind.
  run_load. run_load. run_store. run_load. run_load. run_store.
  run_store.
  unfold unlinked in Hf. rewrite fld_alter_same in Hf by done.
  erewrite load_run; [|simpl; rewrite !(fld_alter_same next) by done; exact Hf].
  run_store. run_load. run_store. run_load. run_store.
  done.
Qed.

Lemma insert_run h l e a f k :
  e ≠ a →
  is_Some (elems h !! e) →
  fld next (elems h) a = Some (Some f) →
  is_Some (elems h !! f) →
  lens h !! l = Some k →
  insert (Some l) (Some e) (Some a) h =
    Some (Some e, mkHeap (alter (set_list (Some l)) e (linked_in a e f (elems h)))
                         (<[l := k + 1]> (lens h))).
Proof.
  intros Hea He Hf Haf Hk.
  assert (is_Some (elems h !! a)) by (by eapply fld_is_Some).
  unfold insert, bind.
  run_store. run_load. run_store. run_load. run_store. run_load. run_store.
  run_store.
  erewrite load_len_run by (simpl; eassumption).
  rewrite store_len_run by (simpl; eauto). done.
Qed.

(** The neighbours of an element of the ring. *)
Lemma ring_split (l : loc) xs e ys :
  NoDup (l :: xs ++ e :: ys) →
  ∃ pre p n post,
    l :: xs = pre ++ [p] ∧ ys ++ [l] = n :: post ∧
    p ∉ pre ∧ p ∉ removelast (n :: post) ∧ n ∉ tail (pre ++ [p]) ∧ n ∉ post ∧
    e ≠ p ∧ e ≠ n ∧ e ∉ pre ∧ e ∉ post.
Proof.
  intros Hnd.
  assert (Hlx : l :: xs ≠ []) by done.
  destruct (exists_last Hlx) as (pre & p & Hpre).
  destruct (ys ++ [l]) as [|n post] eqn:Hpost; [by destruct ys|].
  exists pre, p, n, post.
  assert (Hp : p ∈ l :: xs) by (rewrite Hpre; set_solver).
  assert (Hn : n ∈ ys ++ [l]) by (rewrite Hpost; set_solver).
  assert (Hnd1 : NoDup (pre ++ [p])).
  { rewrite <- Hpre. apply NoDup_cons in Hnd as [Hl Hnd].
    apply NoDup_cons. split; [set_solver|].
    by apply NoDup_app in Hnd as (? & _ & _). }
  assert (Hnd2 : NoDup (n :: post)).
  { rewrite <- Hpost. apply NoDup_cons in Hnd as [Hl Hnd].
    apply NoDup_app in Hnd as (_ & _ & Hnd). apply NoDup_cons in Hnd as [_ Hnd].
    apply NoDup_app. split_and!; [done| |apply NoDup_singleton].
    intros x Hx ->%list_elem_of_singleton. set_solver. }
  assert (Hys : removelast (n :: post) = ys) by (by rewrite <- Hpost, removelast_last).
  assert (Hxs : tail (pre ++ [p]) = xs) by (by rewrite <- Hpre).
  assert (Hdisj : ∀ x, x ∈ l :: xs → x ∈ e :: ys → False).
  { intros x Hx1 Hx2. apply NoDup_cons in Hnd as [Hl Hnd].
    apply NoDup_app in Hnd as (_ & Hd & _).
    apply elem_of_cons in Hx1 as [->|Hx1]; [set_solver|]. by eapply Hd. }
  assert (Hee : e ∉ ys).
  { apply NoDup_cons in Hnd as [_ Hnd]. apply NoDup_app in Hnd as (_ & _ & Hnd).
    by apply NoDup_cons in Hnd as [? _]. }
  assert (Hel : e ≠ l) by (apply NoDup_cons in Hnd as [Hl _]; set_solver).
  assert (Hlys : l ∉ ys) by (apply NoDup_cons in Hnd as [Hl _]; set_solver).
  split_and!; try done.
  - apply NoDup_app in Hnd1 as (_ & Hd & _). intros Hp'. by eapply Hd, list_elem_of_here.
  - rewrite Hys. intros Hp'. eapply Hdisj; [exact Hp|set_solver].
  - rewrite Hxs. intros Hn'. apply elem_of_app in Hn as [Hn| ->%list_elem_of_singleton].
    + eapply Hdisj; [|apply list_elem_of_further; exact Hn]. set_solver.
    + apply NoDup_cons in Hnd as [Hl _]. set_solver.
  - by apply NoDup_cons in Hnd2 as [? _].
  - intros ->. eapply Hdisj; [exact Hp|set_solver].
  - intros ->. apply elem_of_app in Hn as [Hn| ->%list_elem_of_singleton]; done.
  - intros He. eapply Hdisj; [|apply list_elem_of_here]. rewrite Hpre. set_solver.
  - intros He. assert (e ∈ ys ++ [l]) as [?| ->%list_elem_of_singleton]%elem_of_app
      by (rewrite Hpost; set_solver); done.
Qed.

Lemma chain_ext m m' q :
  (∀ x, x ∈ q → m' !! x = m !! x) → chain m q → chain m' q.
Proof.
  intros Hq. apply chain_frame; intros x Hx; unfold fld; rewrite Hq; try done.
  - by apply elem_of_removelast.
  - destruct q; [done|]. by apply list_elem_of_further.
Qed.

Lemma is_list_alloc h l ls x : is_list h l ls → x ∈ l :: ls → is_Some (elems h !! x).
Proof.
  intros (_ & Hc & Hl & _) [->|Hx]%elem_of_cons.
  - destruct (ls ++ [l]) as [|f post] eqn:E; [by destruct ls|].
    destruct Hc as [[Hf _] _]. by eapply fld_is_Some.
  - rewrite Forall_forall in Hl. by eapply fld_is_Some, Hl.
Qed.

Lemma list_Remove_spec h l xs e ys :
  is_list h l (xs ++ e :: ys) →
  ∃ v h', LinkedList.Remove (Some l) (Some e) h = Some (v, h') ∧
    fld Value (elems h) e = Some v ∧
    is_list h' l (xs ++ ys) ∧
    (∀ x, fld Value (elems h') x = fld Value (elems h) x) ∧
    dom (elems h') = dom (elems h).
Proof.
  intros Hl. pose proof Hl as (Hnd & Hc & Hls & Hlen).
  destruct (ring_split _ _ _ _ Hnd)
    as (pre & p & n & post & Hpre & Hpost & Hp1 & Hp2 & Hn1 & Hn2 & Hep & Hen & He1 & He2).
  assert (Hq : l :: (xs ++ e :: ys) ++ [l] = pre ++ p :: e :: n :: post).
  { rewrite <- (assoc_L (++)). simpl. rewrite Hpost.
    change (l :: xs ++ e :: n :: post) with ((l :: xs) ++ e :: n :: post).
    rewrite Hpre. by rewrite <- (assoc_L (++)). }
  assert (Hq' : l :: (xs ++ ys) ++ [l] = pre ++ p :: n :: post).
  { rewrite <- (assoc_L (++)). rewrite Hpost.
    change (l :: xs ++ n :: post) with ((l :: xs) ++ n :: post).
    rewrite Hpre. by rewrite <- (assoc_L (++)). }
  rewrite Hq in Hc.
  pose proof Hc as Hc0.
  apply chain_app in Hc0 as [_ Hc0].
  apply chain_cons in Hc0 as [[Hpe Hprev] Hc0].
  apply chain_cons in Hc0 as [[Hnext Hne] _].
  assert (Hel : fld list_ (elems h) e = Some (Some l)).
  { rewrite Forall_forall in Hls. apply Hls. set_solver. }
  assert (is_Some (elems h !! e)) as [c Hce] by (by eapply fld_is_Some).
  exists (Value c). eexists.
  unfold LinkedList.Remove, bind.
  erewrite load_run by exact Hel.
  unfold ptr_eqb. rewrite bool_decide_eq_true_2 by done.
  erewrite remove_run; [|try done; by eapply fld_is_Some..].
  erewrite load_run; [|unfold unlinked; fld_simpl; unfold fld; by rewrite Hce].
  split; [done|]. split; [unfold fld; by rewrite Hce|].
  split; [|split].
  - split_and!; cbn [elems lens].
    + apply NoDup_cons in Hnd as [Hl1 Hnd]. apply NoDup_cons. split; [set_solver|].
      apply NoDup_app in Hnd as (? & Hd & [_ ?]%NoDup_cons).
      apply NoDup_app. split_and!; [done| |done]. set_solver.
    + rewrite Hq'. apply (chain_ext (unlinked p n (elems h))); [|by apply (chain_unlink _ pre p e n post)].
      intros x Hx. rewrite !lookup_alter_ne; [done|intros ->..];
        (apply elem_of_app in Hx as [?|[->|[->|?]%elem_of_cons]%elem_of_cons]; done).
    + rewrite Forall_forall in Hls |- *. intros x Hx.
      unfold unlinked. rewrite fld_alter_ne.
      * fld_simpl. apply Hls. set_solver.
      * intros ->. apply NoDup_cons in Hnd as [_ Hnd]. 
        apply NoDup_app in Hnd as (? & Hd & [? ?]%NoDup_cons).
        apply elem_of_app in Hx as [Hx|Hx]; [|done]. eapply Hd; [done|set_solver].
    + rewrite lookup_insert_eq. f_equal. rewrite !length_app. simpl. lia.
  - intros x. simpl. unfold unlinked. by fld_simpl.
  - simpl. unfold unlinked. by rewrite !dom_alter_L.
Qed.

Lemma ring_unlink m (l : loc) xs e ys :
  NoDup (l :: xs ++ e :: ys) →
  chain m (l :: (xs ++ e :: ys) ++ [l]) →
  ∃ p n, fld prev m e = Some (Some p) ∧ fld next m e = Some (Some n) ∧
    e ≠ p ∧ e ≠ n ∧ is_Some (m !! p) ∧ is_Some (m !! n) ∧
    chain (unlinked p n m) (l :: (xs ++ ys) ++ [l]).
Proof.
  intros Hnd Hc.
  destruct (ring_split _ _ _ _ Hnd)
    as (pre & p & n & post & Hpre & Hpost & Hp1 & Hp2 & Hn1 & Hn2 & Hep & Hen & He1 & He2).
  assert (Hq : l :: (xs ++ e :: ys) ++ [l] = pre ++ p :: e :: n :: post).
  { rewrite <- (assoc_L (++)). simpl. rewrite Hpost.
    change (l :: xs ++ e :: n :: post) with ((l :: xs) ++ e :: n :: post).
    rewrite Hpre. by rewrite <- (assoc_L (++)). }
  assert (Hq' : l :: (xs ++ ys) ++ [l] = pre ++ p :: n :: post).
  { rewrite <- (assoc_L (++)). rewrite Hpost.
    change (l :: xs ++ n :: post) with ((l :: xs) ++ n :: post).
    rewrite Hpre. by rewrite <- (assoc_L (++)). }
  rewrite Hq in Hc. rewrite Hq'.
  pose proof Hc as Hc0.
  apply chain_app in Hc0 as [_ Hc0].
  apply chain_cons in Hc0 as [[Hpe Hprev] Hc0].
  apply chain_cons in Hc0 as [[Hnext Hne] _].
  exists p, n. split_and!; try done; try (by eapply fld_is_Some).
  by apply (chain_unlink _ pre p e n post).
Qed.

Lemma NoDup_ring_remove (l : loc) xs e ys :
  NoDup (l :: xs ++ e :: ys) →
  NoDup (l :: xs ++ ys) ∧ e ≠ l ∧ (e ∉ xs) ∧ (e ∉ ys).
Proof.
  intros [Hl Hnd]%NoDup_cons.
  apply NoDup_app in Hnd as (Hx & Hd & [He Hy]%NoDup_cons).
  split_and!.
  - apply NoDup_cons. split.
    + intros [?|?]%elem_of_app; apply Hl; apply elem_of_app; [by left|].
      right. by apply list_elem_of_further.
    + apply NoDup_app. split_and!; [done| |done].
      intros x Hx1 Hx2. eapply Hd; [done|]. by apply list_elem_of_further.
  - intros ->. apply Hl. apply elem_of_app. right. apply list_elem_of_here.
  - intros He'. eapply Hd; [done|]. apply list_elem_of_here.
  - done.
Qed.

Lemma list_MoveToFront_spec h l xs e ys :
  is_list h l (xs ++ e :: ys) →
  ∃ h', MoveToFront (Some l) (Some e) h = Some (tt, h') ∧
    is_list h' l (e :: xs ++ ys) ∧
    (∀ x, fld Value (elems h') x = fld Value (elems h) x) ∧
    dom (elems h') = dom (elems h).
Proof.
  intros Hl. pose proof Hl as (Hnd & Hc & Hls & Hlen).
  assert (Hel : fld list_ (elems h) e = Some (Some l)).
  { rewrite Forall_forall in Hls. apply Hls. apply elem_of_app. right. apply list_elem_of_here. }
  unfold MoveToFront, bind.
  erewrite load_run by exact Hel.
  unfold ptr_eqb at 1. rewrite bool_decide_eq_true_2 by done.
  cbn [negb root ret].
  destruct xs as [|x xs].
  { simpl in Hc. destruct Hc as [[Hf _] _].
    erewrite load_run by exact Hf.
    unfold ptr_eqb. rewrite bool_decide_eq_true_2 by done.
    exists h. by split_and!. }
  pose proof Hc as [[Hf Hxp] _].
  erewrite load_run by exact Hf.
  destruct (NoDup_ring_remove _ _ _ _ Hnd) as (Hnd' & Hel' & Hex & Hey).
  assert (x ≠ e) by (intros ->; apply Hex, list_elem_of_here).
  unfold ptr_eqb. rewrite bool_decide_eq_false_2 by congruence.
  destruct (ring_unlink _ _ _ _ _ Hnd Hc) as (p & n & Hp & Hn & Hep & Hen & Hap & Han & Hc').
  pose proof Hc' as [[Hf' _] _].
  assert (is_Some (elems h !! x)) by (by eapply fld_is_Some).
  erewrite move_run; [|try done..].
  eexists. split; [done|].
  assert (He : is_Some (elems h !! e)) by (by eapply fld_is_Some).
  unfold is_list. split_and!; cbn [elems lens].
  - apply NoDup_cons in Hnd' as [Hl1 Hnd']. apply NoDup_cons. split.
    + intros [?|?]%elem_of_cons; done.
    + apply NoDup_cons. split; [|done]. 
      change (x :: xs ++ ys) with ((x :: xs) ++ ys).
      intros [?|?]%elem_of_app; done.
  - change (l :: (e :: (x :: xs) ++ ys) ++ [l]) with (l :: e :: x :: (xs ++ ys) ++ [l]).
    apply chain_link.
    + exact Hc'.
    + unfold unlinked. by rewrite !is_Some_alter.
    + done.
    + change (x :: (xs ++ ys) ++ [l]) with (((x :: xs) ++ ys) ++ [l]).
      intros [[?|?]%elem_of_app| ->%list_elem_of_singleton]%elem_of_app; done.
    + change (x :: (xs ++ ys) ++ [l]) with (((x :: xs) ++ ys) ++ [l]).
      rewrite removelast_last. by apply NoDup_cons in Hnd' as [? _].
    + apply NoDup_cons in Hnd' as [Hl1 Hnd']. simpl in Hnd'.
      apply NoDup_cons in Hnd' as [Hx1 Hnd'].
      intros [?| ->%list_elem_of_singleton]%elem_of_app; [done|].
      apply Hl1. apply list_elem_of_here.
  - rewrite Forall_forall in Hls |- *. intros y Hy.
    unfold linked_in, unlinked. fld_simpl. apply Hls.
    change ((x :: xs) ++ e :: ys) with (x :: xs ++ e :: ys).
    change (e :: (x :: xs) ++ ys) with (e :: x :: xs ++ ys) in Hy.
    apply elem_of_cons in Hy as [->|[->|Hy]%elem_of_cons].
    + apply list_elem_of_further, elem_of_app. right. apply list_elem_of_here.
    + apply list_elem_of_here.
    + apply list_elem_of_further. apply elem_of_app in Hy as [?|?]; apply elem_of_app; [by left|].
      right. by apply list_elem_of_further.
  - rewrite Hlen. do 2 f_equal. simpl. rewrite !length_app. simpl. lia.
  - intros y. unfold linked_in, unlinked. by fld_simpl.
  - unfold linked_in, unlinked. by rewrite !dom_alter_L.
Qed.

Lemma list_Init_spec h l :
  is_Some (elems h !! l) → is_Some (lens h !! l) →
  ∃ h', Init (Some l) h = Some (Some l, h') ∧
    is_list h' l [] ∧
    (∀ x, fld Value (elems h') x = fld Value (elems h) x) ∧
    dom (elems h') = dom (elems h).
Proof.
  intros Hl Hn. unfold Init, bind. cbn [root ret].
  run_store. run_store. rewrite store_len_run by done.
  eexists. split; [done|]. unfold is_list, upd_elem. split_and!; cbn [elems lens].
  - apply NoDup_singleton.
  - simpl. split; [split|done].
    + rewrite fld_alter_same by done. by apply fld_alter_eq.
    + apply fld_alter_eq; [by rewrite is_Some_alter|done].
  - constructor.
  - by rewrite lookup_insert_eq.
  - intros x. by fld_simpl.
  - by rewrite !dom_alter_L.
Qed.

Lemma list_NewList_spec h :
  ∃ l h', NewList h = Some (Some l, h') ∧
    l ∉ dom (elems h) ∧
    is_list h' l [] ∧
    (∀ x, x ≠ l → elems h' !! x = elems h !! x) ∧
    dom (elems h') = {[l]} ∪ dom (elems h).
Proof.
  unfold NewList, bind, new_List.
  set (l := fresh (dom (elems h))).
  set (h1 := mkHeap _ _).
  destruct (list_Init_spec h1 l) as (h' & Hrun & Hl & Hv & Hd).
  { subst h1. simpl. by rewrite lookup_insert_eq. }
  { subst h1. simpl. by rewrite lookup_insert_eq. }
  exists l, h'. split_and!; try done.
  - apply is_fresh.
  - intros x Hx. unfold Init, bind in Hrun. cbn [root ret] in Hrun.
    rewrite !store_run in Hrun; [|subst h1; simpl; rewrite ?is_Some_alter, lookup_insert_eq; eauto..].
    rewrite store_len_run in Hrun by (subst h1; simpl; rewrite lookup_insert_eq; eauto).
    injection Hrun as <-. unfold upd_elem. simpl. rewrite !lookup_alter_ne by done.
    by rewrite lookup_insert_ne.
  - rewrite Hd. subst h1. simpl. by rewrite dom_insert_L.
Qed.

Lemma list_Len_spec h l ls :
  is_list h l ls → LinkedList.Len (Some l) h = Some (Z.of_nat (length ls), h).
Proof. intros (_ & _ & _ & Hn). unfold LinkedList.Len. by apply load_len_run. Qed.

Lemma ring_back m (l : loc) ls b :
  chain m (l :: (ls ++ [b]) ++ [l]) → linked m b l.
Proof.
  rewrite <- (assoc_L (++)).
  change (l :: ls ++ [b] ++ [l]) with ((l :: ls) ++ b :: [l]).
  intros [_ [? _]]%chain_app. done.
Qed.

Lemma list_Back_spec h l ls :
  is_list h l ls → Back (Some l) h = Some (last ls, h).
Proof.
  intros (Hnd & Hc & _ & Hn). unfold Back, bind.
  erewrite load_len_run by exact Hn.
  destruct ls as [|a ls _] using rev_ind; [done|].
  rewrite length_app. simpl.
  destruct (Z.eqb_spec (Z.of_nat (length ls + 1)) 0) as [?|_]; [lia|].
  cbn [root ret]. apply ring_back in Hc as [_ Hb].
  erewrite load_run by exact Hb. by rewrite last_snoc.
Qed.

Lemma list_Front_spec h l ls :
  is_list h l ls → Front (Some l) h = Some (head ls, h).
Proof.
  intros (Hnd & Hc & _ & Hn). unfold Front, bind.
  erewrite load_len_run by exact Hn.
  destruct ls as [|a ls]; [done|]. cbn [length].
  destruct (Z.eqb_spec (Z.of_nat (S (length ls))) 0) as [?|_]; [lia|].
  cbn [root ret]. destruct Hc as [[Hf _] _].
  by erewrite load_run by exact Hf.
Qed.

Lemma list_Prev_spec h l xs e ys :
  is_list h l (xs ++ e :: ys) → Prev (Some e) h = Some (last xs, h).
Proof.
  intros (Hnd & Hc & Hls & _).
  assert (Hel : fld list_ (elems h) e = Some (Some l)).
  { rewrite Forall_forall in Hls. apply Hls. apply elem_of_app. right. apply list_elem_of_here. }
  unfold Prev, bind.
  destruct xs as [|p xs _] using rev_ind.
  - destruct Hc as [[_ Hp] _].
    erewrite load_run by exact Hp. erewrite load_run by exact Hel.
    unfold ptr_eqb. rewrite bool_decide_eq_false_2 by done. cbn [negb root ret].
    by rewrite bool_decide_eq_true_2.
  - assert (Hp : fld prev (elems h) e = Some (Some p)).
    { rewrite <- !(assoc_L (++)) in Hc. simpl in Hc.
      change (l :: xs ++ p :: e :: ys ++ [l]) with ((l :: xs) ++ p :: e :: ys ++ [l]) in Hc.
      apply chain_app in Hc as [_ [[_ ?] _]]. done. }
    erewrite load_run by exact Hp. erewrite load_run by exact Hel.
    unfold ptr_eqb. rewrite bool_decide_eq_false_2 by done. cbn [negb root ret].
    rewrite bool_decide_eq_false_2.
    + by rewrite last_snoc.
    + intros [= ->]. apply NoDup_cons in Hnd as [Hnd _]. apply Hnd.
      rewrite <- (assoc_L (++)). apply elem_of_app. right. apply list_elem_of_here.
Qed.

Lemma list_Next_spec h l xs e ys :
  is_list h l (xs ++ e :: ys) → Next (Some e) h = Some (head ys, h).
Proof.
  intros (Hnd & Hc & Hls & _).
  assert (Hel : fld list_ (elems h) e = Some (Some l)).
  { rewrite Forall_forall in Hls. apply Hls. apply elem_of_app. right. apply list_elem_of_here. }
  unfold Next, bind.
  rewrite <- (assoc_L (++)) in Hc.
  change (l :: xs ++ (e :: ys) ++ [l]) with ((l :: xs) ++ e :: ys ++ [l]) in Hc.
  apply chain_app in Hc as [_ Hc].
  destruct ys as [|n ys].
  - destruct Hc as [[Hn _] _].
    erewrite load_run by exact Hn. erewrite load_run by exact Hel.
    unfold ptr_eqb. rewrite bool_decide_eq_false_2 by done. cbn [negb root ret].
    by rewrite bool_decide_eq_true_2.
  - destruct Hc as [[Hn _] _].
    erewrite load_run by exact Hn. erewrite load_run by exact Hel.
    unfold ptr_eqb. rewrite bool_decide_eq_false_2 by done. cbn [negb root ret].
    rewrite bool_decide_eq_false_2; [done|].
    intros [= ->]. apply NoDup_cons in Hnd as [Hnd _]. apply Hnd.
    apply elem_of_app. right. apply list_elem_of_further, list_elem_of_here.
Qed.

Lemma list_PushFront_spec h l ls v :
  is_list h l ls →
  ∃ e h', PushFront (Some l) v h = Some (Some e, h') ∧
    e ∉ dom (elems h) ∧
    is_list h' l (e :: ls) ∧
    fld Value (elems h') e = Some v ∧
    (∀ x, x ≠ e → fld Value (elems h') x = fld Value (elems h) x) ∧
    dom (elems h') = {[e]} ∪ dom (elems h).
Proof.
  intros Hl. pose proof Hl as (Hnd & Hc & Hls & Hn).
  destruct (ls ++ [l]) as [|f post] eqn:Hpost; [by destruct ls|].
  pose proof Hc as [[Hf Hfp] _].
  unfold PushFront, lazyInit, bind. cbn [root ret].
  erewrite load_run by exact Hf.
  unfold ptr_eqb. rewrite bool_decide_eq_false_2 by done.
  unfold insertValue, bind, new_Element, ret. cbv beta iota zeta.
  set (e := fresh (dom (elems h))).
  assert (He : e ∉ dom (elems h)) by apply is_fresh.
  assert (Hfresh : ∀ x, x ∈ l :: ls → x ≠ e).
  { intros x Hx ->. apply He, elem_of_dom. by eapply is_list_alloc. }
  assert (Hfe : f ≠ e).
  { intros ->. apply He, elem_of_dom. by eapply fld_is_Some. }
  erewrite insert_run; cbn [elems lens].
  2: { apply not_eq_sym, Hfresh, list_elem_of_here. }
  2: { by rewrite lookup_insert_eq. }
  2: { rewrite fld_insert_ne; [exact Hf|]. apply Hfresh, list_elem_of_here. }
  2: { rewrite lookup_insert_ne by done. by eapply fld_is_Some. }
  2: { exact Hn. }
  exists e. eexists. split; [done|]. split; [done|].
  assert (Hpost_in : ∀ x, x ∈ f :: post → x ∈ l :: ls).
  { intros x. rewrite <- Hpost. intros [?| ->%list_elem_of_singleton]%elem_of_app.
    - by apply list_elem_of_further.
    - apply list_elem_of_here. }
  unfold is_list. split_and!; cbn [elems lens].
  - apply NoDup_cons. split; [|apply NoDup_cons; split].
    + intros [->|?]%elem_of_cons.
      * by eapply Hfresh; [apply list_elem_of_here|].
      * by apply NoDup_cons in Hnd as [? _].
    + intros Hx. by eapply Hfresh; [apply list_elem_of_further, Hx|].
    + by apply NoDup_cons in Hnd as [_ ?].
  - change (l :: (e :: ls) ++ [l]) with (l :: e :: ls ++ [l]). rewrite Hpost.
    eapply chain_frame; [| |apply chain_link].
    + intros x _. by apply fld_alter_same.
    + intros x _. by apply fld_alter_same.
    + eapply chain_ext; [|exact Hc]. intros x Hx.
      apply lookup_insert_ne. apply not_eq_sym.
      apply elem_of_cons in Hx as [->|Hx]; [apply Hfresh, list_elem_of_here|].
      by apply Hfresh, Hpost_in.
    + by rewrite lookup_insert_eq.
    + apply not_eq_sym, Hfresh, list_elem_of_here.
    + intros Hx. by eapply Hfresh; [apply Hpost_in, Hx|].
    + rewrite <- Hpost, removelast_last. by apply NoDup_cons in Hnd as [? _].
    + assert (NoDup (ls ++ [l])) as Hnd'.
      { apply NoDup_cons in Hnd as [? ?]. apply NoDup_app. split_and!; [done| |apply NoDup_singleton].
        by intros x ? ->%list_elem_of_singleton. }
      rewrite Hpost in Hnd'. by apply NoDup_cons in Hnd' as [? _].
  - constructor.
    + apply fld_alter_eq; [|done]. unfold linked_in. by rewrite !is_Some_alter, lookup_insert_eq.
    + rewrite Forall_forall in Hls |- *. intros x Hx.
      assert (x ≠ e) by (by apply Hfresh, list_elem_of_further).
      unfold linked_in. fld_simpl. rewrite fld_insert_ne by done. by apply Hls.
  - rewrite lookup_insert_eq. f_equal. cbn [length]. lia.
  - unfold linked_in. fld_simpl. by rewrite fld_insert_eq.
  - intros x Hx. unfold linked_in. fld_simpl. by rewrite fld_insert_ne.
  - unfold linked_in. by rewrite !dom_alter_L, dom_insert_L.
Qed.

Lemma is_list_size h l ls : is_list h l ls → (length ls < size (elems h))%nat.
Proof.
  intros Hl. pose proof Hl as (Hnd & _).
  assert (Hsub : list_to_set (C:=gset loc) (l :: ls) ⊆ dom (elems h)).
  { intros x Hx%elem_of_list_to_set. apply elem_of_dom. by eapply is_list_alloc. }
  apply subseteq_size in Hsub. rewrite size_list_to_set in Hsub by done.
  rewrite size_dom in Hsub. simpl in Hsub. lia.
Qed.

Lemma kept_reaped_perm {A : Type} (exp : A → Z) clk (os : list A) : ∀ t,
  os ≡ₚ kept exp clk t os ++ reaped exp clk t os.
Proof.
  induction os as [|o os IH]; intros t; simpl; [done|].
  destruct (After _ _); simpl.
  - rewrite <- Permutation_middle. by rewrite <- IH.
  - by rewrite <- IH.
Qed.

Lemma walk_loop_spec h l ys : ∀ xs fuel acc,
  is_list h l (xs ++ ys) → (length ys ≤ fuel)%nat →
  walk_loop fuel (head ys) acc h = Some (acc ++ ys, h).
Proof.
  induction ys as [|e ys IH]; intros xs fuel acc Hl Hf.
  - destruct fuel; simpl; by rewrite app_nil_r.
  - simpl in Hf. destruct fuel as [|fuel]; [lia|]. cbn [head walk_loop]. unfold bind.
    rewrite (list_Next_spec _ _ _ _ _ Hl).
    rewrite (IH (xs ++ [e])); [|by rewrite <- (assoc_L (++))|lia].
    by rewrite <- (assoc_L (++)).
Qed.

Lemma walk_spec h l ls : is_list h l ls → walk (Some l) h = Some (ls, h).
Proof.
  intros Hl. unfold walk, bind, gets. rewrite (list_Front_spec _ _ _ Hl).
  rewrite (walk_loop_spec h l ls [] _ []); [done|done|].
  apply is_list_size in Hl. lia.
Qed.

Lemma NoDup_fmap_eq {A B : Type} (f : A → B) (l : list A) x y :
  NoDup (f <$> l) → x ∈ l → y ∈ l → f x = f y → x = y.
Proof.
  intros Hnd [i Hi]%list_elem_of_lookup [j Hj]%list_elem_of_lookup Hf.
  assert (i = j) as ->; [|congruence].
  eapply NoDup_lookup; [exact Hnd|..].
  - by rewrite list_lookup_fmap, Hi.
  - by rewrite list_lookup_fmap, Hj, Hf.
Qed.

(** C9: a call of [Remove], [MoveToFront], [MoveToBack], [MoveBefore],
    [MoveAfter], [InsertBefore] or [InsertAfter] on a list [l] with a node [e]
    whose [list] field is not [l], as the element or as the mark, returns
    without a panic and leaves the whole memory, hence [l], as it was. *)
Theorem foreign_node_noop (h : heap) (l : ptr) (e x : loc) (c : Element) (v y : ptr) :
  elems h !! e = Some c → list_ c ≠ l → is_Some (elems h !! x) →
  LinkedList.Remove l (Some e) h = Some (Value c, h) ∧
  MoveToFront l (Some e) h = Some (tt, h) ∧
  MoveToBack l (Some e) h = Some (tt, h) ∧
  MoveBefore l (Some e) y h = Some (tt, h) ∧
  MoveAfter l (Some e) y h = Some (tt, h) ∧
  MoveBefore l (Some x) (Some e) h = Some (tt, h) ∧
  MoveAfter l (Some x) (Some e) h = Some (tt, h) ∧
  InsertBefore l v (Some e) h = Some (nil, h) ∧
  InsertAfter l v (Some e) h = Some (nil, h).
Proof.
  intros He Hl [cx Hx].
  assert (Hld : ∀ (A : Type) (f : Element → A), load f (Some e) h = Some (f c, h)).
  { intros. apply load_run. unfold fld. by rewrite He. }
  assert (Hne : ptr_eqb (list_ c) l = false) by (by apply bool_decide_eq_false_2).
  unfold LinkedList.Remove, MoveToFront, MoveToBack, MoveBefore, MoveAfter,
    InsertBefore, InsertAfter, bind.
  rewrite !Hld, !Hne. simpl. split_and!; try done.
  - assert (load list_ (Some x) h = Some (list_ cx, h)) as ->
      by (apply load_run; unfold fld; by rewrite Hx).
    destruct (ptr_eqb (list_ cx) l); [|done]. simpl.
    destruct (ptr_eqb (Some x) (Some e)); [done|]. by rewrite Hld, Hne.
  - assert (load list_ (Some x) h = Some (list_ cx, h)) as ->
      by (apply load_run; unfold fld; by rewrite Hx).
    destruct (ptr_eqb (list_ cx) l); [|done]. simpl.
    destruct (ptr_eqb (Some x) (Some e)); [done|]. by rewrite Hld, Hne.
Qed.

Lemma filter_ne_absent {A : Type} `{EqDecision A} (x : A) (l : list A) :
  x ∉ l → filter (λ y, y ≠ x) l = l.
Proof.
  induction l as [|y l IH]; [done|]. intros [Hy Hl]%not_elem_of_cons.
  rewrite filter_cons_True by done. by rewrite IH.
Qed.

Lemma filter_ne_middle {A : Type} `{EqDecision A} (x : A) (l1 l2 : list A) :
  NoDup (l1 ++ x :: l2) → filter (λ y, y ≠ x) (l1 ++ x :: l2) = l1 ++ l2.
Proof.
  intros Hnd. apply NoDup_app in Hnd as (_ & Hd & [Hx _]%NoDup_cons).
  rewrite filter_app, filter_cons_False by (by intros ?).
  rewrite !filter_ne_absent; [done|done|]. intros ?. by eapply Hd; [|apply list_elem_of_here].
Qed.

Lemma kept_sublist {A : Type} (exp : A → Z) clk (os : list A) : ∀ t,
  kept exp clk t os `sublist_of` os.
Proof.
  induction os as [|o os IH]; intros t; simpl; [done|].
  destruct (After _ _); [by apply sublist_cons|by apply sublist_skip].
Qed.

Lemma reaped_sublist {A : Type} (exp : A → Z) clk (os : list A) : ∀ t,
  reaped exp clk t os `sublist_of` os.
Proof.
  induction os as [|o os IH]; intros t; simpl; [done|].
  destruct (After _ _); [by apply sublist_skip|by apply sublist_cons].
Qed.

Lemma filter_ext_in {A : Type} (P Q : A → Prop) `{!∀ x, Decision (P x), !∀ x, Decision (Q x)}
    (l : list A) :
  (∀ x, x ∈ l → P x ↔ Q x) → filter P l = filter Q l.
Proof.
  induction l as [|a l IH]; intros HPQ; [done|].
  assert (filter P l = filter Q l) as Hl.
  { apply IH. intros x Hx. apply HPQ. by apply list_elem_of_further. }
  destruct (decide (P a)) as [Ha|Ha].
  - rewrite !filter_cons_True; [by rewrite Hl|by apply HPQ; [apply list_elem_of_here|]|done].
  - rewrite !filter_cons_False; [done| |done].
    intros Hq. apply Ha. by apply HPQ; [apply list_elem_of_here|].
Qed.

End list_facts.

(** ** The cache code *)

Ltac wsimpl :=
  cbn [mem ents clock ticks evlog cache with_mem with_ents with_cache with_items
       with_size with_purgeEvery size_ purgeEvery ttl onEvicted items evictList
       c_elem c_ptr c_entry fst snd].

Section removeElement_facts.

Context {K : Type} `{Countable K} {V : Type}.

Local Abbreviation entry := (expirableEntry (K:=K) (V:=V)).
Local Abbreviation world := (world (K:=K) (V:=V)).
Local Abbreviation cell := (loc * loc * entry)%type.

Implicit Types (w : world) (cs xs ys : list cell) (c : cell) (k : K) (v : V).

Lemma in_mem_run {A : Type} (m : M heap A) (w : world) a h' :
  m (mem w) = Some (a, h') → in_mem m w = Some (a, with_mem h' w).
Proof. intros Hm. unfold in_mem, zoom. by rewrite Hm. Qed.

Lemma deref_entry_run (w : world) p en :
  ents w !! p = Some en → deref_entry (Some p) w = Some (en, w).
Proof. intros Hp. unfold deref_entry. by rewrite Hp. Qed.

Lemma index_keys (cs : list cell) : (index cs).*1 = key <$> (c_entry <$> cs).
Proof. unfold index. rewrite <- !list_fmap_compose. done. Qed.

Lemma index_app (xs ys : list cell) : index (xs ++ ys) = index xs ++ index ys.
Proof. unfold index. by rewrite fmap_app. Qed.

Lemma index_middle xs (c : cell) ys :
  index (xs ++ c :: ys) ≡ₚ (key (c_entry c), Some (c_elem c)) :: index (xs ++ ys).
Proof. rewrite !index_app. simpl. by rewrite Permutation_middle. Qed.

Lemma list_to_map_middle xs (c : cell) ys :
  NoDup ((index (xs ++ c :: ys)).*1) →
  (list_to_map (index (xs ++ c :: ys)) : gmap K ptr) =
    <[key (c_entry c) := Some (c_elem c)]> (list_to_map (index (xs ++ ys))).
Proof. intros Hnd. by rewrite (list_to_map_proper _ _ Hnd (index_middle xs c ys)). Qed.

Lemma NoDup_keys_middle xs (c : cell) ys :
  NoDup ((index (xs ++ c :: ys)).*1) →
  (key (c_entry c) ∉ (index (xs ++ ys)).*1) ∧ NoDup ((index (xs ++ ys)).*1).
Proof.
  intros Hnd. rewrite (index_middle xs c ys) in Hnd. simpl in Hnd.
  by apply NoDup_cons in Hnd.
Qed.

Lemma removeElement_spec (w : world) xs c ys :
  rep_cells w (xs ++ c :: ys) →
  ∃ w', removeElement (Some (c_elem c)) w = Some (tt, w') ∧
    rep_cells w' (xs ++ ys) ∧
    evlog w' = evlog w ++ fired (onEvicted (cache w)) (c_entry c) ∧
    cfg w' = cfg w ∧ ticks w' = ticks w ∧ ents w' = ents w ∧
    (∀ x, fld Value (elems (mem w')) x = fld Value (elems (mem w)) x) ∧
    dom (elems (mem w')) = dom (elems (mem w)).
Proof.
  intros (l & Hl & Hlist & Hptr & Hok & Hkeys & Hitems).
  rewrite fmap_app in Hlist. simpl in Hlist.
  destruct (list_Remove_spec _ _ _ _ _ Hlist) as (v & h' & Hrun & Hv & Hlist' & Hval & Hdom).
  pose proof Hok as Hc. rewrite Forall_app, Forall_cons in Hc.
  destruct Hc as (_ & [Hcv Hce] & _).
  rewrite Hcv in Hv. injection Hv as <-.
  unfold removeElement, bind, gets. rewrite Hl.
  rewrite (in_mem_run _ _ _ _ Hrun).
  erewrite in_mem_run; [|apply load_run; simpl; rewrite Hval; exact Hcv].
  rewrite (deref_entry_run _ _ (c_entry c)) by done.
  unfold delete_item, modify. cbn [cache with_cache with_mem onEvicted with_items].
  destruct (NoDup_keys_middle _ _ _ Hkeys) as [Hk Hkeys'].
  assert (Hrep : ∀ w', mem w' = h' → ents w' = ents w →
     cache w' = with_items (delete (key (c_entry c)) (items (cache w))) (cache w) →
     rep_cells w' (xs ++ ys)).
  { intros w' Hm He Hca. exists l. rewrite Hm, Hca. simpl. split_and!; try done.
    - by rewrite fmap_app.
    - rewrite fmap_app in Hptr |- *. simpl in Hptr.
      apply NoDup_app in Hptr as (? & Hd & [? ?]%NoDup_cons).
      apply NoDup_app. split_and!; [done| |done].
      intros x ??. eapply Hd; [done|]. by apply list_elem_of_further.
    - rewrite Forall_app, Forall_cons in Hok. destruct Hok as (Hx & _ & Hy).
      rewrite Forall_app. split; (eapply Forall_impl; [eassumption|]);
        intros c' [? ?]; (split; [by rewrite Hm, Hval|by rewrite He]).
    - rewrite Hitems, list_to_map_middle by done.
      rewrite delete_insert_eq. apply delete_id. by apply not_elem_of_list_to_map_1. }
  unfold fired. destruct (onEvicted (cache w)).
  - rewrite (deref_entry_run _ _ (c_entry c)) by done.
    unfold call_onEvicted, modify. eexists. split; [done|].
    split_and!; try done. by apply Hrep.
  - eexists. split; [done|]. split_and!; try done.
    + by apply Hrep.
    + simpl. by rewrite app_nil_r.
Qed.

End removeElement_facts.

Section construction_facts.

Context {K : Type} `{Countable K} {V : Type}.

Local Abbreviation entry := (expirableEntry (K:=K) (V:=V)).
Local Abbreviation world := (world (K:=K) (V:=V)).
Local Abbreviation cell := (loc * loc * entry)%type.

Implicit Types (w : world) (cs xs ys : list cell) (c : cell) (k : K) (v : V).

Lemma rep_cells_Back w cs l :
  rep_cells w cs → evictList (cache w) = Some l →
  Back (Some l) (mem w) = Some (c_elem <$> last cs, mem w).
Proof.
  intros (l' & Hl & Hlist & _) Hl'. rewrite Hl in Hl'. injection Hl' as ->.
  rewrite (list_Back_spec _ _ _ Hlist). by rewrite fmap_last.
Qed.

Lemma removeOldest_nil w :
  rep_cells w [] → removeOldest w = Some (tt, w).
Proof.
  intros Hrep. pose proof Hrep as (l & Hl & _).
  unfold removeOldest, bind, gets. rewrite Hl.
  erewrite in_mem_run by (by eapply rep_cells_Back).
  simpl. by destruct w.
Qed.

Lemma removeOldest_snoc w cs c :
  rep_cells w (cs ++ [c]) →
  ∃ w', removeOldest w = Some (tt, w') ∧
    rep_cells w' cs ∧
    evlog w' = evlog w ++ fired (onEvicted (cache w)) (c_entry c) ∧
    cfg w' = cfg w ∧ ticks w' = ticks w ∧ ents w' = ents w ∧
    (∀ x, fld Value (elems (mem w')) x = fld Value (elems (mem w)) x) ∧
    dom (elems (mem w')) = dom (elems (mem w)).
Proof.
  intros Hrep. pose proof Hrep as (l & Hl & _).
  destruct (removeElement_spec _ _ _ _ Hrep)
    as (w' & Hrun & Hrep' & Hev & Hcfg & Ht & He & Hv & Hd).
  rewrite app_nil_r in Hrep'.
  exists w'. split_and!; try done.
  unfold removeOldest, bind, gets. rewrite Hl.
  erewrite in_mem_run by (by eapply rep_cells_Back).
  rewrite last_snoc. simpl.
  assert (with_mem (mem w) w = w) as -> by (by destruct w). done.
Qed.

Lemma NewLRU_spec (w0 : world) size on ttl0 pe :
  ∃ w, NewLRU size on ttl0 pe w0 = Some (tt, w) ∧
    rep_cells w [] ∧
    size_ (cache w) = Z.max size 0 ∧
    ttl (cache w) = (if ttl0 <=? 0 then noEvictionTTL else ttl0) ∧
    onEvicted (cache w) = on ∧
    evlog w = evlog w0 ∧ clock w = clock w0 ∧ ticks w = ticks w0 ∧ ents w = ents w0.
Proof.
  destruct (list_NewList_spec (mem w0)) as (l & h' & Hrun & Hl & Hlist & _).
  unfold NewLRU, bind. rewrite (in_mem_run _ _ _ _ Hrun). unfold modify.
  assert (Hsz : (if size <? 0 then 0 else size) = Z.max size 0).
  { destruct (Z.ltb_spec size 0); lia. }
  rewrite Hsz.
  match goal with |- context [with_cache ?r _] => set (res := r) end.
  assert (Hres : size_ res = Z.max size 0 ∧
                 ttl res = (if ttl0 <=? 0 then noEvictionTTL else ttl0) ∧
                 onEvicted res = on ∧ items res = ∅ ∧ evictList res = Some l).
  { subst res. destruct (negb _ && _); [destruct (pe <=? 0)|]; done. }
  destruct Hres as (? & ? & ? & Hit & Hev).
  eexists. split; [done|]. cbn [cache with_cache with_mem evlog clock ticks ents].
  split_and!; try done.
  exists l. cbn [cache with_cache mem with_mem].
  rewrite Hit. split_and!; try done; simpl; constructor.
Qed.

End construction_facts.

Section refresh_facts.

Context {K : Type} `{Countable K} {V : Type}.

Local Abbreviation entry := (expirableEntry (K:=K) (V:=V)).
Local Abbreviation world := (world (K:=K) (V:=V)).
Local Abbreviation cell := (loc * loc * entry)%type.

Implicit Types (w : world) (cs xs ys : list cell) (c : cell) (k : K) (v : V).

Lemma rep_cells_item w xs c ys :
  rep_cells w (xs ++ c :: ys) →
  items (cache w) !! key (c_entry c) = Some (Some (c_elem c)).
Proof.
  intros (l & _ & _ & _ & _ & Hnd & ->).
  apply elem_of_list_to_map_1; [done|].
  rewrite index_app. apply elem_of_app. right. apply list_elem_of_here.
Qed.

Lemma rep_cells_absent w cs k :
  rep_cells w cs → k ∉ key <$> (c_entry <$> cs) → items (cache w) !! k = None.
Proof.
  intros (l & _ & _ & _ & _ & Hnd & ->) Hk.
  apply not_elem_of_list_to_map_1. by rewrite index_keys.
Qed.

Lemma rep_cells_size w cs :
  rep_cells w cs → size (items (cache w)) = length cs.
Proof.
  intros (l & _ & _ & _ & _ & Hnd & ->).
  rewrite map_size_list_to_map by done. unfold index. by rewrite length_fmap.
Qed.

Lemma add_hit w xs c ys k v t :
  rep_cells w (xs ++ c :: ys) → key (c_entry c) = k →
  ∃ w', add k v t w = Some (false, w') ∧
    rep_cells w' ((c_elem c, c_ptr c, mkEntry k v (clock w (ticks w) + t)) :: xs ++ ys) ∧
    evlog w' = evlog w ∧ cfg w' = cfg w ∧ ticks w' = S (ticks w).
Proof.
  intros Hrep Hk. pose proof (rep_cells_item _ _ _ _ Hrep) as Hit. rewrite Hk in Hit.
  destruct Hrep as (l & Hl & Hlist & Hptr & Hok & Hkeys & Hitems).
  rewrite fmap_app in Hlist. simpl in Hlist.
  destruct (list_MoveToFront_spec _ _ _ _ _ Hlist) as (h' & Hrun & Hlist' & Hval & Hdom).
  pose proof Hok as Hc. rewrite Forall_app, Forall_cons in Hc.
  destruct Hc as (Hokx & [Hcv Hce] & Hoky).
  unfold add, bind, Now, gets. cbn [cache]. rewrite Hit, Hl.
  erewrite in_mem_run by exact Hrun.
  erewrite in_mem_run; [|apply load_run; cbn [mem with_mem]; rewrite Hval; exact Hcv].
  unfold store_entry at 1. cbn [ents with_mem]. rewrite Hce.
  erewrite in_mem_run; [|apply load_run; cbn [mem with_mem with_ents]; rewrite Hval; exact Hcv].
  unfold store_entry. cbn [ents with_mem with_ents]. rewrite lookup_insert_eq.
  rewrite insert_insert_eq.
  eexists. split; [done|].
  split_and!; try done.
  exists l. wsimpl.
  assert (Hnp : ∀ c', c' ∈ xs ++ ys → c_ptr c' ≠ c_ptr c).
  { intros c' Hc' Heq. rewrite fmap_app in Hptr. simpl in Hptr.
    apply NoDup_app in Hptr as (_ & Hd & [Hn _]%NoDup_cons).
    apply elem_of_app in Hc' as [Hc'|Hc'].
    - eapply Hd; [by apply list_elem_of_fmap_2|]. rewrite Heq. apply list_elem_of_here.
    - apply Hn. rewrite <- Heq. by apply list_elem_of_fmap_2. }
  split_and!.
  - done.
  - simpl. by rewrite fmap_app.
  - simpl. rewrite fmap_app in Hptr |- *. simpl in Hptr.
    apply NoDup_app in Hptr as (? & Hd & [? ?]%NoDup_cons).
    apply NoDup_cons. split.
    + intros [?|?]%elem_of_app; [|done]. by eapply Hd; [|apply list_elem_of_here].
    + apply NoDup_app. split_and!; [done| |done].
      intros x ??. eapply Hd; [done|]. by apply list_elem_of_further.
  - constructor.
    + split; wsimpl.
      * by rewrite Hval.
      * rewrite lookup_insert_eq. unfold set_expiresAt, set_value. simpl. by rewrite Hk.
    + rewrite Forall_forall. intros c' Hc'.
      assert (cell_ok w c') as [? ?].
      { rewrite Forall_forall in Hok. apply Hok.
        apply elem_of_app in Hc' as [?|?]; apply elem_of_app; [by left|].
        right. by apply list_elem_of_further. }
      split; wsimpl.
      * by rewrite Hval.
      * rewrite lookup_insert_ne; [done|]. apply not_eq_sym. by apply Hnp.
  - rewrite (index_middle xs c ys) in Hkeys. simpl. by rewrite Hk in Hkeys.
  - wsimpl. rewrite Hitems, list_to_map_middle by done. simpl. by rewrite Hk.
Qed.

End refresh_facts.

Section insert_facts.

Context {K : Type} `{Countable K} {V : Type}.

Local Abbreviation entry := (expirableEntry (K:=K) (V:=V)).
Local Abbreviation world := (world (K:=K) (V:=V)).
Local Abbreviation cell := (loc * loc * entry)%type.

Implicit Types (w : world) (cs xs ys : list cell) (c : cell) (k : K) (v : V).

Lemma add_miss w cs k v t :
  rep_cells w cs → k ∉ key <$> (c_entry <$> cs) →
  ∃ w' a p,
    let c := (a, p, mkEntry k v (clock w (ticks w) + t)) in
    let over := over_capacity w (S (length cs)) in
    add k v t w = Some (over, w') ∧
    rep_cells w' (if over then removelast (c :: cs) else c :: cs) ∧
    evlog w' = evlog w ++
      (if over then from_option (fired (onEvicted (cache w))) [] (c_entry <$> last (c :: cs))
       else []) ∧
    cfg w' = cfg w ∧ ticks w' = S (ticks w).
Proof.
  intros Hrep Hk. pose proof (rep_cells_absent _ _ _ Hrep Hk) as Hit.
  destruct Hrep as (l & Hl & Hlist & Hptr & Hok & Hkeys & Hitems).
  set (en := mkEntry k v (clock w (ticks w) + t)).
  set (p := fresh (dom (ents w))).
  destruct (list_PushFront_spec _ _ _ (Some p) Hlist)
    as (a & h' & Hrun & Hfresh & Hlist' & Hva & Hval & Hdom).
  assert (Hp : p ∉ dom (ents w)) by apply is_fresh.
  set (w1 := with_cache (with_items (<[k := Some a]> (items (cache w))) (cache w))
               (with_mem h' (with_ents (<[p := en]> (ents w))
                  (mkWorld (mem w) (ents w) (clock w) (S (ticks w)) (evlog w) (cache w))))).
  assert (Hrep1 : rep_cells w1 ((a, p, en) :: cs)).
  { exists l. subst w1. wsimpl. split_and!.
    - done.
    - done.
    - simpl. apply NoDup_cons. split; [|done].
      intros (c & Heq & Hc)%list_elem_of_fmap. apply Hp, elem_of_dom.
      rewrite Forall_forall in Hok. destruct (Hok _ Hc) as [_ ?].
      cbn [c_ptr fst snd] in Heq. rewrite Heq. eauto.
    - constructor.
      + split; wsimpl; [done|]. by rewrite lookup_insert_eq.
      + rewrite Forall_forall in Hok |- *. intros c Hc.
        destruct (Hok _ Hc) as [Hcv Hce]. split; wsimpl.
        * rewrite Hval; [done|]. intros Heq. apply Hfresh, elem_of_dom.
          rewrite <- Heq. by eapply fld_is_Some.
        * rewrite lookup_insert_ne; [done|]. intros Heq. apply Hp, elem_of_dom.
          rewrite Heq. eauto.
    - simpl. apply NoDup_cons. split; [|done]. by rewrite index_keys.
    - by rewrite Hitems. }
  exists (if over_capacity w (S (length cs))
          then match removeOldest w1 with Some (_, w') => w' | None => w1 end
          else w1), a, p.
  cbv zeta. fold en.
  unfold add, bind, Now, gets. wsimpl. rewrite Hit, Hl.
  unfold new_entry. wsimpl. fold p. fold en.
  erewrite in_mem_run by exact Hrun.
  unfold set_item, modify. wsimpl. fold w1.
  assert (Hsz : size (<[k := Some a]> (items (cache w))) = S (length cs))
    by exact (rep_cells_size _ _ Hrep1).
  rewrite Hsz.
  change ((0 <? size_ (cache w)) && (size_ (cache w) <? Z.of_nat (S (length cs))))
    with (over_capacity w (S (length cs))).
  destruct (over_capacity w (S (length cs))).
  - assert (Hne : (a, p, en) :: cs ≠ []) by done.
    destruct (exists_last Hne) as (cs' & cl & Hcs). rewrite Hcs in Hrep1 |- *.
    destruct (removeOldest_snoc _ _ _ Hrep1) as (w' & Hro & Hrep' & Hev & Hcfg & Ht & _).
    rewrite Hro. rewrite removelast_last, last_snoc. simpl.
    split_and!; try done.
  - split_and!; try done. by rewrite app_nil_r.
Qed.

End insert_facts.

Section lookup_facts.

Context {K : Type} `{Countable K} {V : Type}.
Variables (zeroK : K) (zeroV : V).

Local Abbreviation entry := (expirableEntry (K:=K) (V:=V)).
Local Abbreviation world := (world (K:=K) (V:=V)).
Local Abbreviation cell := (loc * loc * entry)%type.

Implicit Types (w : world) (cs xs ys : list cell) (c : cell) (k : K) (v : V).

Lemma rep_cells_ext w w' cs :
  mem w' = mem w → ents w' = ents w → cache w' = cache w →
  rep_cells w cs → rep_cells w' cs.
Proof.
  intros Hm He Hc (l & Hl & Hlist & Hptr & Hok & Hkeys & Hitems).
  exists l. rewrite Hm, Hc. split_and!; try done.
  eapply Forall_impl; [exact Hok|]. intros c [? ?]. split; by rewrite ?Hm, ?He.
Qed.

Lemma with_mem_id w : with_mem (mem w) w = w.
Proof. by destruct w. Qed.

Lemma rep_cells_cell w xs c ys :
  rep_cells w (xs ++ c :: ys) → cell_ok w c.
Proof.
  intros (_ & _ & _ & _ & Hok & _). rewrite Forall_app, Forall_cons in Hok. tauto.
Qed.

Lemma Get_miss w cs k :
  rep_cells w cs → k ∉ key <$> (c_entry <$> cs) →
  Get zeroV k w = Some ((zeroV, false), w).
Proof.
  intros Hrep Hk. unfold Get, bind, gets.
  by rewrite (rep_cells_absent _ _ _ Hrep Hk).
Qed.

Lemma Get_expired w xs c ys :
  rep_cells w (xs ++ c :: ys) →
  After (clock w (ticks w)) (expiresAt (c_entry c)) = true →
  Get zeroV (key (c_entry c)) w = Some ((zeroV, false), ticked w).
Proof.
  intros Hrep Hexp. destruct (rep_cells_cell _ _ _ _ Hrep) as [Hcv Hce].
  unfold Get, bind, gets, Now. rewrite (rep_cells_item _ _ _ _ Hrep).
  erewrite in_mem_run; [|apply load_run; exact Hcv].
  erewrite deref_entry_run by exact Hce.
  by rewrite Hexp.
Qed.

Lemma Get_live w xs c ys :
  rep_cells w (xs ++ c :: ys) →
  After (clock w (ticks w)) (expiresAt (c_entry c)) = false →
  ∃ w', Get zeroV (key (c_entry c)) w = Some ((value (c_entry c), true), w') ∧
    rep_cells w' (c :: xs ++ ys) ∧
    evlog w' = evlog w ∧ cfg w' = cfg w ∧ ticks w' = S (ticks w).
Proof.
  intros Hrep Hexp. destruct (rep_cells_cell _ _ _ _ Hrep) as [Hcv Hce].
  pose proof (rep_cells_item _ _ _ _ Hrep) as Hit.
  destruct Hrep as (l & Hl & Hlist & Hptr & Hok & Hkeys & Hitems).
  rewrite fmap_app in Hlist. simpl in Hlist.
  destruct (list_MoveToFront_spec _ _ _ _ _ Hlist) as (h' & Hrun & Hlist' & Hval & Hdom).
  unfold Get, bind, gets, Now. rewrite Hit.
  erewrite in_mem_run; [|apply load_run; exact Hcv].
  erewrite deref_entry_run by exact Hce.
  rewrite Hexp. rewrite Hl.
  erewrite in_mem_run by exact Hrun.
  erewrite in_mem_run; [|apply load_run; wsimpl; rewrite Hval; exact Hcv].
  erewrite deref_entry_run by exact Hce.
  eexists. split; [done|]. split_and!; try done.
  exists l. wsimpl. split_and!; try done.
  - simpl. by rewrite fmap_app.
  - simpl. rewrite fmap_app in Hptr |- *. simpl in Hptr.
    apply NoDup_app in Hptr as (? & Hd & [? ?]%NoDup_cons).
    apply NoDup_cons. split.
    + intros [?|?]%elem_of_app; [|done]. by eapply Hd; [|apply list_elem_of_here].
    + apply NoDup_app. split_and!; [done| |done].
      intros x ??. eapply Hd; [done|]. by apply list_elem_of_further.
  - assert (Forall (cell_ok w) (c :: xs ++ ys)) as Hok'.
    { rewrite Forall_app, Forall_cons in Hok. rewrite Forall_cons, Forall_app. tauto. }
    eapply Forall_impl; [exact Hok'|]. intros c' [? ?]. split; wsimpl; [by rewrite Hval|done].
  - by rewrite (index_middle xs c ys) in Hkeys.
  - rewrite Hitems. by apply list_to_map_proper, index_middle.
Qed.

Lemma Peek_miss w cs k :
  rep_cells w cs → k ∉ key <$> (c_entry <$> cs) →
  Peek zeroV k w = Some ((zeroV, false), w).
Proof.
  intros Hrep Hk. unfold Peek, bind, gets.
  by rewrite (rep_cells_absent _ _ _ Hrep Hk).
Qed.

Lemma Peek_hit w xs c ys :
  rep_cells w (xs ++ c :: ys) →
  Peek zeroV (key (c_entry c)) w =
    Some (if After (clock w (ticks w)) (expiresAt (c_entry c))
          then (zeroV, false) else (value (c_entry c), true), ticked w).
Proof.
  intros Hrep. destruct (rep_cells_cell _ _ _ _ Hrep) as [Hcv Hce].
  unfold Peek, bind, gets, Now. rewrite (rep_cells_item _ _ _ _ Hrep).
  erewrite in_mem_run; [|apply load_run; exact Hcv].
  erewrite deref_entry_run by exact Hce.
  destruct (After _ _); [done|].
  erewrite in_mem_run; [|apply load_run; exact Hcv].
  erewrite deref_entry_run by exact Hce. done.
Qed.

Lemma Contains_spec w cs k :
  rep_cells w cs →
  Contains k w = Some (bool_decide (k ∈ key <$> (c_entry <$> cs)), w).
Proof.
  intros (l & _ & _ & _ & _ & Hnd & Hitems).
  unfold Contains, bind, gets, ret. do 2 f_equal.
  apply bool_decide_ext. rewrite Hitems, <- index_keys. split.
  - intros Hs. destruct (decide (k ∈ (index cs).*1)) as [|Hn]; [done|].
    apply (not_elem_of_list_to_map_1 (M:=gmap K)) in Hn. rewrite Hn in Hs. by destruct Hs.
  - intros Hk. destruct (list_to_map (index cs) !! k) eqn:E; [eauto|].
    by apply not_elem_of_list_to_map_2 in E.
Qed.

Lemma cache_Len_spec w cs :
  rep_cells w cs → Len w = Some (Z.of_nat (length cs), w).
Proof.
  intros (l & Hl & Hlist & _). unfold Len, bind, gets. rewrite Hl.
  erewrite in_mem_run by (by apply list_Len_spec).
  by rewrite with_mem_id, length_fmap.
Qed.

End lookup_facts.

Section oldest_keys_facts.

Context {K : Type} `{Countable K} {V : Type}.
Variables (zeroK : K) (zeroV : V).

Local Abbreviation entry := (expirableEntry (K:=K) (V:=V)).
Local Abbreviation world := (world (K:=K) (V:=V)).
Local Abbreviation cell := (loc * loc * entry)%type.

Implicit Types (w : world) (cs xs ys : list cell) (c : cell) (k : K) (v : V).

Lemma Remove_miss w cs k :
  rep_cells w cs → k ∉ key <$> (c_entry <$> cs) →
  LRU.Remove k w = Some (false, w).
Proof.
  intros Hrep Hk. unfold LRU.Remove, bind, gets.
  by rewrite (rep_cells_absent _ _ _ Hrep Hk).
Qed.

Lemma Remove_hit w xs c ys :
  rep_cells w (xs ++ c :: ys) →
  ∃ w', LRU.Remove (key (c_entry c)) w = Some (true, w') ∧
    rep_cells w' (xs ++ ys) ∧
    evlog w' = evlog w ++ fired (onEvicted (cache w)) (c_entry c) ∧
    cfg w' = cfg w ∧ ticks w' = ticks w.
Proof.
  intros Hrep.
  destruct (removeElement_spec _ _ _ _ Hrep) as (w' & Hrun & Hrep' & Hev & Hcfg & Ht & _).
  exists w'. split_and!; try done.
  unfold LRU.Remove, bind, gets. rewrite (rep_cells_item _ _ _ _ Hrep).
  by rewrite Hrun.
Qed.

Lemma GetOldest_nil w :
  rep_cells w [] → GetOldest zeroK zeroV w = Some ((zeroK, zeroV, false), w).
Proof.
  intros Hrep. pose proof Hrep as (l & Hl & _).
  unfold GetOldest, bind, gets. rewrite Hl.
  erewrite in_mem_run by (by eapply rep_cells_Back).
  simpl. by rewrite with_mem_id.
Qed.

Lemma GetOldest_snoc w cs c :
  rep_cells w (cs ++ [c]) →
  GetOldest zeroK zeroV w = Some ((key (c_entry c), value (c_entry c), true), w).
Proof.
  intros Hrep. pose proof Hrep as (l & Hl & _).
  destruct (rep_cells_cell _ _ _ _ Hrep) as [Hcv Hce].
  unfold GetOldest, bind, gets. rewrite Hl.
  erewrite in_mem_run by (by eapply rep_cells_Back).
  rewrite last_snoc, with_mem_id. simpl.
  erewrite in_mem_run; [|apply load_run; exact Hcv].
  rewrite with_mem_id. by erewrite deref_entry_run by exact Hce.
Qed.

Lemma RemoveOldest_nil w :
  rep_cells w [] → RemoveOldest zeroK zeroV w = Some ((zeroK, zeroV, false), w).
Proof.
  intros Hrep. pose proof Hrep as (l & Hl & _).
  unfold RemoveOldest, bind, gets. rewrite Hl.
  erewrite in_mem_run by (by eapply rep_cells_Back).
  simpl. by rewrite with_mem_id.
Qed.

Lemma RemoveOldest_snoc w cs c :
  rep_cells w (cs ++ [c]) →
  ∃ w', RemoveOldest zeroK zeroV w =
          Some ((key (c_entry c), value (c_entry c), true), w') ∧
    rep_cells w' cs ∧
    evlog w' = evlog w ++ fired (onEvicted (cache w)) (c_entry c) ∧
    cfg w' = cfg w ∧ ticks w' = ticks w.
Proof.
  intros Hrep. pose proof Hrep as (l & Hl & _).
  destruct (rep_cells_cell _ _ _ _ Hrep) as [Hcv Hce].
  destruct (removeElement_spec _ _ _ _ Hrep)
    as (w' & Hrun & Hrep' & Hev & Hcfg & Ht & He & Hv & Hd).
  rewrite app_nil_r in Hrep'.
  exists w'. split_and!; try done.
  unfold RemoveOldest, bind, gets. rewrite Hl.
  erewrite in_mem_run by (by eapply rep_cells_Back).
  rewrite last_snoc, with_mem_id. simpl. rewrite Hrun.
  erewrite in_mem_run; [|apply load_run; rewrite Hv; exact Hcv].
  rewrite with_mem_id. erewrite deref_entry_run by (rewrite He; exact Hce). done.
Qed.

Lemma keys_loop_spec w xs ys fuel acc :
  rep_cells w (xs ++ ys) → (length xs ≤ fuel)%nat →
  keys_loop fuel (c_elem <$> last xs) acc w = Some (acc ++ reverse (keys_of xs), w).
Proof.
  revert ys fuel acc. induction xs as [|c xs IH] using rev_ind; intros ys fuel acc Hrep Hf.
  - destruct fuel; simpl; by rewrite app_nil_r.
  - rewrite length_app in Hf. simpl in Hf. destruct fuel as [|fuel]; [lia|].
    rewrite last_snoc. cbn [keys_loop fmap option_fmap option_map].
    unfold ptr_eqb. rewrite bool_decide_eq_false_2 by done.
    rewrite <- (assoc_L (++)) in Hrep. simpl in Hrep.
    destruct (rep_cells_cell _ _ _ _ Hrep) as [Hcv Hce].
    unfold bind.
    erewrite in_mem_run; [|apply load_run; exact Hcv].
    rewrite with_mem_id. erewrite deref_entry_run by exact Hce.
    pose proof Hrep as (l & Hl & Hlist & _).
    rewrite fmap_app in Hlist. simpl in Hlist.
    erewrite in_mem_run by (by eapply list_Prev_spec).
    rewrite with_mem_id, fmap_last.
    rewrite (IH (c :: ys)); [|done|lia].
    unfold keys_of. rewrite !fmap_app, reverse_app. simpl.
    by rewrite <- (assoc_L (++)).
Qed.

Lemma keys_spec w cs :
  rep_cells w cs → keys w = Some (reverse (keys_of cs), w).
Proof.
  intros Hrep. pose proof Hrep as (l & Hl & Hlist & _).
  unfold keys, bind, gets. rewrite Hl.
  erewrite in_mem_run by (by eapply rep_cells_Back).
  rewrite with_mem_id.
  rewrite (keys_loop_spec w cs [] _ []); [done|by rewrite app_nil_r|].
  apply is_list_size in Hlist. rewrite length_fmap in Hlist. lia.
Qed.

End oldest_keys_facts.

Section sweep_resize_facts.

Context {K : Type} `{Countable K} {V : Type}.
Variables (zeroK : K) (zeroV : V).

Local Abbreviation entry := (expirableEntry (K:=K) (V:=V)).
Local Abbreviation world := (world (K:=K) (V:=V)).
Local Abbreviation cell := (loc * loc * entry)%type.

Implicit Types (w : world) (cs xs ys : list cell) (c : cell) (k : K) (v : V).

Lemma cfg_inv w w' :
  cfg w' = cfg w →
  size_ (cache w') = size_ (cache w) ∧ purgeEvery (cache w') = purgeEvery (cache w) ∧
  ttl (cache w') = ttl (cache w) ∧ onEvicted (cache w') = onEvicted (cache w) ∧
  evictList (cache w') = evictList (cache w) ∧ clock w' = clock w.
Proof. unfold cfg. intros [= ? ? ? ? ? ?]. by split_and!. Qed.

Lemma fired_all_cons on (en : entry) es : fired_all on (en :: es) = fired on en ++ fired_all on es.
Proof. by destruct on. Qed.

Lemma fired_all_app on (es1 es2 : list entry) :
  fired_all on (es1 ++ es2) = fired_all on es1 ++ fired_all on es2.
Proof. destruct on; [apply fmap_app|done]. Qed.

Lemma deleteExpired_loop_spec todo : ∀ done_ w,
  rep_cells w (reverse (done_ ++ todo)) →
  ∃ w', deleteExpired_loop (keys_of todo) w = Some (tt, w') ∧
    rep_cells w' (reverse (done_ ++ kept c_exp (clock w) (ticks w) todo)) ∧
    evlog w' = evlog w ++
      fired_all (onEvicted (cache w)) (c_entry <$> reaped c_exp (clock w) (ticks w) todo) ∧
    cfg w' = cfg w ∧ ticks w' = (ticks w + length todo)%nat.
Proof.
  induction todo as [|c todo IH]; intros done_ w Hrep.
  - exists w. simpl. split_and!; try done; try lia.
    + unfold fired_all. destruct (onEvicted _); by rewrite app_nil_r.
  - assert (Hsplit : reverse (done_ ++ c :: todo) = reverse todo ++ c :: reverse done_).
    { rewrite reverse_app, reverse_cons, <- (assoc_L (++)). done. }
    rewrite Hsplit in Hrep.
    destruct (rep_cells_cell _ _ _ _ Hrep) as [Hcv Hce].
    pose proof (rep_cells_item _ _ _ _ Hrep) as Hit.
    cbn [keys_of fmap list_fmap deleteExpired_loop].
    change (key <$> (c_entry <$> todo)) with (keys_of todo).
    unfold bind at 1. unfold Now. unfold bind at 1. unfold gets at 1.
    unfold bind at 1. unfold item. wsimpl. rewrite Hit. cbn [default from_option id].
    erewrite in_mem_run; [|apply load_run; exact Hcv].
    unfold bind at 1. erewrite deref_entry_run by exact Hce.
    unfold bind at 1. cbn [kept reaped]. fold (c_exp c).
    change (expiresAt (c_entry c)) with (c_exp c).
    assert (Ht : rep_cells (ticked w) (reverse todo ++ c :: reverse done_))
      by (by eapply rep_cells_ext; [..|exact Hrep]).
    destruct (After (clock w (ticks w)) (c_exp c)).
    + destruct (removeElement_spec _ _ _ _ Ht)
        as (w1 & Hrun & Hrep1 & Hev1 & Hcfg1 & Ht1 & _).
      unfold bind at 1, gets at 1. wsimpl. rewrite Hit. cbn [default from_option id].
      change (with_mem (mem w) _) with (ticked w). rewrite Hrun.
      rewrite <- reverse_app in Hrep1.
      destruct (IH done_ w1 Hrep1) as (w' & Hrun' & Hrep' & Hev' & Hcfg' & Ht').
      destruct (cfg_inv _ _ Hcfg1) as (_ & _ & _ & Hon & _ & Hclk).
      exists w'. rewrite Hrun'. rewrite Hclk, Ht1 in Hrep', Hev'.
      split_and!; try done.
      * rewrite Hev', Hev1, Hon. simpl. rewrite fired_all_cons.
        by rewrite <- (assoc_L (++)).
      * by rewrite Hcfg'.
      * rewrite Ht', Ht1. simpl. lia.
    + unfold ret at 1.
      assert (Hrep1 : rep_cells (ticked w) (reverse ((done_ ++ [c]) ++ todo))).
      { rewrite <- (assoc_L (++)). simpl. by rewrite Hsplit. }
      destruct (IH (done_ ++ [c]) (ticked w) Hrep1) as (w' & Hrun' & Hrep' & Hev' & Hcfg' & Ht').
      exists w'. change (with_mem _ _) with (ticked w). rewrite Hrun'. simpl in *.
      rewrite <- (assoc_L (++)) in Hrep'. simpl in Hrep'.
      split_and!; try done. lia.
Qed.

Lemma keys_of_reverse cs : reverse (keys_of cs) = keys_of (reverse cs).
Proof. unfold keys_of. by rewrite !fmap_reverse. Qed.

Lemma deleteExpired_spec w cs :
  rep_cells w cs →
  ∃ w', deleteExpired w = Some (tt, w') ∧
    rep_cells w' (reverse (kept c_exp (clock w) (ticks w) (reverse cs))) ∧
    evlog w' = evlog w ++
      fired_all (onEvicted (cache w))
        (c_entry <$> reaped c_exp (clock w) (ticks w) (reverse cs)) ∧
    cfg w' = cfg w ∧ ticks w' = (ticks w + length cs)%nat.
Proof.
  intros Hrep. unfold deleteExpired, bind.
  rewrite (keys_spec _ _ Hrep), keys_of_reverse.
  destruct (deleteExpired_loop_spec (reverse cs) [] w) as (w' & Hrun & ? & ? & ? & Ht).
  { simpl. by rewrite reverse_involutive. }
  exists w'. rewrite length_reverse in Ht. by split_and!.
Qed.

Lemma times_removeOldest (d : nat) : ∀ w cs,
  rep_cells w cs → (d ≤ length cs)%nat →
  ∃ w', times d removeOldest w = Some (tt, w') ∧
    rep_cells w' (take (length cs - d) cs) ∧
    evlog w' = evlog w ++
      fired_all (onEvicted (cache w)) (c_entry <$> reverse (drop (length cs - d) cs)) ∧
    cfg w' = cfg w ∧ ticks w' = ticks w.
Proof.
  induction d as [|d IH]; intros w cs Hrep Hd.
  - exists w. simpl. rewrite Nat.sub_0_r, firstn_all, drop_all. simpl.
    split_and!; try done. unfold fired_all. destruct (onEvicted _); by rewrite app_nil_r.
  - destruct cs as [|c cs _] using rev_ind; [simpl in Hd; lia|].
    rewrite length_app in Hd |- *. simpl in Hd |- *.
    destruct (removeOldest_snoc _ _ _ Hrep) as (w1 & Hrun & Hrep1 & Hev1 & Hcfg1 & Ht1 & _).
    destruct (IH w1 cs Hrep1) as (w' & Hrun' & Hrep' & Hev' & Hcfg' & Ht'); [lia|].
    destruct (cfg_inv _ _ Hcfg1) as (_ & _ & _ & Hon & _ & Hclk).
    exists w'. unfold bind. rewrite Hrun, Hrun'.
    replace (length cs + 1 - S d)%nat with (length cs - d)%nat by lia.
    rewrite take_app_le by lia. rewrite drop_app_le by lia.
    split_and!; try done.
    + rewrite Hev', Hev1, Hon. rewrite reverse_app. simpl.
      rewrite fired_all_cons. by rewrite <- (assoc_L (++)).
    + by rewrite Hcfg'.
    + by rewrite Ht'.
Qed.

Lemma Resize_spec w cs n :
  rep_cells w cs → 0 < n →
  let d := Z.to_nat (Z.max (Z.of_nat (length cs) - n) 0) in
  ∃ w', Resize n w = Some (Z.of_nat d, w') ∧
    rep_cells w' (take (length cs - d) cs) ∧
    evlog w' = evlog w ++
      fired_all (onEvicted (cache w)) (c_entry <$> reverse (drop (length cs - d) cs)) ∧
    size_ (cache w') = n ∧
    onEvicted (cache w') = onEvicted (cache w) ∧ ttl (cache w') = ttl (cache w) ∧
    purgeEvery (cache w') = purgeEvery (cache w) ∧
    clock w' = clock w ∧ ticks w' = ticks w.
Proof.
  intros Hrep Hn d. pose proof Hrep as (l & Hl & Hlist & _).
  unfold Resize. destruct (Z.leb_spec n 0) as [?|_]; [lia|].
  unfold bind, gets. rewrite Hl.
  erewrite in_mem_run by (by apply list_Len_spec).
  rewrite with_mem_id, length_fmap.
  assert (Hd : (if Z.of_nat (length cs) - n <? 0 then 0 else Z.of_nat (length cs) - n)
               = Z.of_nat d).
  { subst d. destruct (Z.ltb_spec (Z.of_nat (length cs) - n) 0); lia. }
  rewrite Hd, Nat2Z.id.
  destruct (times_removeOldest d w cs Hrep) as (w1 & Hrun & Hrep1 & Hev1 & Hcfg1 & Ht1); [lia|].
  destruct (cfg_inv _ _ Hcfg1) as (? & ? & ? & ? & ? & ?).
  rewrite Hrun. unfold modify. eexists. split; [done|]. wsimpl.
  split_and!; try done.
Qed.

End sweep_resize_facts.

Section purge_facts.

Context {K : Type} `{Countable K} {V : Type}.
Variables (zeroK : K) (zeroV : V).

Local Abbreviation entry := (expirableEntry (K:=K) (V:=V)).
Local Abbreviation world := (world (K:=K) (V:=V)).
Local Abbreviation cell := (loc * loc * entry)%type.

Implicit Types (w : world) (cs xs ys : list cell) (c : cell) (k : K) (v : V).

Lemma entry_at_cell w c : cell_ok w c → entry_at w (Some (c_elem c)) = Some (c_entry c).
Proof. intros [Hv He]. unfold entry_at. by rewrite Hv. Qed.

Lemma Purge_loop_spec kvs : ∀ w,
  Forall (λ kv, is_Some (entry_at w kv.2)) kvs →
  ∃ w', Purge_loop kvs w = Some (tt, w') ∧
    mem w' = mem w ∧ ents w' = ents w ∧ cfg w' = cfg w ∧ ticks w' = ticks w ∧
    evlog w' = evlog w ++ (if onEvicted (cache w) then omap (purge_event w) kvs else []) ∧
    items (cache w') = foldl (λ m k, delete k m) (items (cache w)) kvs.*1.
Proof.
  induction kvs as [|[k e] kvs IH]; intros w Hall.
  - exists w. simpl. split_and!; try done. destruct (onEvicted _); by rewrite app_nil_r.
  - apply Forall_cons in Hall as [[en Hen] Hall]. simpl in Hen.
    assert (Hent : ∀ w1 : world, mem w1 = mem w → ents w1 = ents w →
              Forall (λ kv, is_Some (entry_at w1 kv.2)) kvs).
    { intros w1 Hm He. eapply Forall_impl; [exact Hall|]. intros kv Hkv.
      unfold entry_at in *. by rewrite Hm, He. }
    assert (Hpe : ∀ w1 : world, mem w1 = mem w → ents w1 = ents w →
              omap (purge_event w1) kvs = omap (purge_event w) kvs).
    { intros w1 Hm He. clear -Hm He.
      induction kvs as [|kv kvs' IHk]; [done|]. cbn [omap list_omap]. rewrite IHk.
      unfold purge_event, entry_at. by rewrite Hm, He. }
    cbn [Purge_loop omap list_omap]. unfold purge_event at 1. cbn [fst snd]. rewrite Hen.
    unfold bind, gets.
    unfold entry_at in Hen. destruct e as [a|]; [|done].
    destruct (fld Value (elems (mem w)) a) as [[p|]|] eqn:Hv; try done.
    destruct (onEvicted (cache w)) eqn:Hon.
    + erewrite in_mem_run; [|apply load_run; exact Hv].
      rewrite with_mem_id. erewrite deref_entry_run by exact Hen.
      unfold call_onEvicted, delete_item, modify.
      match goal with |- context [Purge_loop kvs ?x] => set (w1 := x) end.
      destruct (IH w1 (Hent w1 eq_refl eq_refl))
        as (w' & Hrun & Hm & He & Hcfg & Ht & Hev & Hit).
      exists w'. split; [done|]. split_and!; try done.
      rewrite Hev. subst w1. wsimpl. rewrite Hon.
      rewrite Hpe by done. by rewrite <- (assoc_L (++)).
    + unfold ret, delete_item, modify.
      match goal with |- context [Purge_loop kvs ?x] => set (w1 := x) end.
      destruct (IH w1 (Hent w1 eq_refl eq_refl))
        as (w' & Hrun & Hm & He & Hcfg & Ht & Hev & Hit).
      exists w'. split; [done|]. split_and!; try done.
      rewrite Hev. subst w1. wsimpl. by rewrite Hon.
Qed.

Lemma foldl_delete_lookup (ks : list K) : ∀ (m : gmap K ptr) j,
  foldl (λ m k, delete k m) m ks !! j = if decide (j ∈ ks) then None else m !! j.
Proof.
  induction ks as [|k ks IH]; intros m j; cbn [foldl].
  - by rewrite decide_False by apply not_elem_of_nil.
  - rewrite IH. destruct (decide (j ∈ ks)) as [Hj|Hj].
    + rewrite decide_True; [done|]. by apply list_elem_of_further.
    + destruct (decide (j = k)) as [->|Hne].
      * rewrite lookup_delete_eq. by rewrite decide_True by apply list_elem_of_here.
      * rewrite lookup_delete_ne by done. rewrite decide_False; [done|].
        intros [?|?]%elem_of_cons; done.
Qed.

Lemma omap_purge_event w cs :
  Forall (cell_ok w) cs →
  omap (purge_event w) (index cs) = (λ en : entry, (key en, value en)) <$> (c_entry <$> cs).
Proof.
  induction 1 as [|c cs Hc _ IH]; [done|].
  cbn [index fmap list_fmap omap list_omap]. unfold purge_event at 1. cbn [fst snd].
  rewrite (entry_at_cell _ _ Hc). unfold index in IH. by rewrite IH.
Qed.

Lemma Purge_spec w cs :
  rep_cells w cs →
  ∃ w' evs, Purge w = Some (tt, w') ∧
    rep_cells w' [] ∧
    evlog w' = evlog w ++ evs ∧
    evs ≡ₚ fired_all (onEvicted (cache w)) (c_entry <$> cs) ∧
    cfg w' = cfg w ∧ ticks w' = ticks w.
Proof.
  intros Hrep. pose proof Hrep as (l & Hl & Hlist & Hptr & Hok & Hkeys & Hitems).
  assert (Hperm : map_to_list (items (cache w)) ≡ₚ index cs).
  { rewrite Hitems. by apply map_to_list_to_map. }
  destruct (Purge_loop_spec (map_to_list (items (cache w))) w)
    as (w1 & Hrun & Hm & He & Hcfg & Ht & Hev & Hit).
  { rewrite Hperm. unfold index. rewrite Forall_fmap.
    eapply Forall_impl; [exact Hok|]. intros c Hc.
    change (is_Some (entry_at w (Some (c_elem c)))).
    rewrite (entry_at_cell _ _ Hc). eauto. }
  destruct (cfg_inv _ _ Hcfg) as (? & ? & ? & Hon & Hel & ?).
  destruct (list_Init_spec (mem w) l) as (h' & Hinit & Hlist' & Hval & Hdom).
  { eapply is_list_alloc; [exact Hlist|]. apply list_elem_of_here. }
  { destruct Hlist as (_ & _ & _ & ?). eauto. }
  unfold Purge, bind, gets. rewrite Hrun, Hel, Hl.
  erewrite in_mem_run by (rewrite Hm; exact Hinit).
  eexists. eexists. split; [done|]. wsimpl. split_and!.
  - exists l. wsimpl. split_and!; try done; try by (simpl; constructor).
    { by rewrite Hel. }
    rewrite Hit. simpl. apply map_eq. intros j. rewrite foldl_delete_lookup, lookup_empty.
    destruct (decide _) as [|Hj]; [done|].
    destruct (items (cache w) !! j) as [e|] eqn:E; [|done].
    exfalso. apply Hj. apply list_elem_of_fmap. exists (j, e). split; [done|].
    by apply elem_of_map_to_list.
  - exact Hev.
  - destruct (onEvicted (cache w)); simpl; [|done].
    rewrite Hperm. by rewrite omap_purge_event.
  - by rewrite <- Hcfg.
  - done.
Qed.

End purge_facts.

Section step_facts.

Context {K : Type} `{Countable K} {V : Type}.
Variables (zeroK : K) (zeroV : V).

Local Abbreviation entry := (expirableEntry (K:=K) (V:=V)).
Local Abbreviation world := (world (K:=K) (V:=V)).
Local Abbreviation cell := (loc * loc * entry)%type.

Implicit Types (w : world) (cs xs ys : list cell) (c : cell) (k : K) (v : V).

Lemma keys_of_split cs k :
  k ∈ keys_of cs → ∃ xs c ys, cs = xs ++ c :: ys ∧ key (c_entry c) = k.
Proof.
  unfold keys_of. rewrite <- list_fmap_compose.
  intros (c & -> & (xs & ys & ->)%list_elem_of_split)%list_elem_of_fmap.
  by exists xs, c, ys.
Qed.

Lemma step_same w cs w' :
  rep_cells w cs → cap_ok w cs →
  mem w' = mem w → ents w' = ents w → cache w' = cache w → evlog w' = evlog w →
  clock w' = clock w →
  step_ok w cs w' cs.
Proof.
  intros Hrep Hcap Hm He Hc Hev Hcl. unfold step_ok. split_and!.
  - by eapply rep_cells_ext.
  - unfold cap_ok. by rewrite Hc.
  - exists [], cs, []. split_and!.
    + by rewrite app_nil_r.
    + unfold fired_all. by destruct (onEvicted (cache w)).
    + split; [by rewrite app_nil_r|by left].
  - by rewrite Hc.
  - done.
  - by rewrite Hc.
Qed.

Lemma step_reorder w cs w' cs' :
  rep_cells w' cs' → cap_ok w cs → keys_of cs' ≡ₚ keys_of cs →
  evlog w' = evlog w → cfg w' = cfg w →
  step_ok w cs w' cs'.
Proof.
  intros Hrep Hcap Hk Hev Hcfg.
  destruct (cfg_inv _ _ Hcfg) as (Hs & _ & _ & Hon & _ & Hcl).
  unfold step_ok. split_and!; try done.
  - unfold cap_ok. rewrite Hs.
    assert (length cs' = length cs) as ->; [|done].
    apply Permutation_length in Hk. unfold keys_of in Hk. by rewrite !length_fmap in Hk.
  - exists [], cs, []. split_and!.
    + by rewrite app_nil_r.
    + unfold fired_all. by destruct (onEvicted (cache w)).
    + split; [by rewrite app_nil_r|by left].
  - by rewrite Hs.
Qed.

Lemma step_shrink w cs w' stay gone evs :
  rep_cells w' stay → cap_ok w cs → cs ≡ₚ stay ++ gone →
  evlog w' = evlog w ++ evs →
  evs ≡ₚ fired_all (onEvicted (cache w)) (c_entry <$> gone) →
  cfg w' = cfg w →
  step_ok w cs w' stay.
Proof.
  intros Hrep Hcap Hp Hev Hevs Hcfg.
  destruct (cfg_inv _ _ Hcfg) as (Hs & _ & _ & Hon & _ & Hcl).
  unfold step_ok. split_and!; try done.
  - unfold cap_ok. rewrite Hs. intros Hpos. specialize (Hcap Hpos).
    apply Permutation_length in Hp. rewrite length_app in Hp. lia.
  - exists evs, stay, gone. split_and!; try done. split; [done|by left].
  - by rewrite Hs.
Qed.

End step_facts.

Section reach_facts.

Context {K : Type} `{Countable K} {V : Type}.
Variables (zeroK : K) (zeroV : V).

Local Abbreviation entry := (expirableEntry (K:=K) (V:=V)).
Local Abbreviation world := (world (K:=K) (V:=V)).
Local Abbreviation cell := (loc * loc * entry)%type.

Implicit Types (w : world) (cs xs ys : list cell) (c : cell) (k : K) (v : V).

Lemma keys_of_app xs ys : keys_of (xs ++ ys) = keys_of xs ++ keys_of ys.
Proof. unfold keys_of. by rewrite !fmap_app. Qed.

Lemma keys_of_middle xs c ys :
  keys_of (xs ++ c :: ys) ≡ₚ key (c_entry c) :: keys_of (xs ++ ys).
Proof. rewrite !keys_of_app. simpl. by rewrite Permutation_middle. Qed.

Lemma add_step w cs k v t :
  rep_cells w cs → cap_ok w cs →
  ∃ b w' cs', add k v t w = Some (b, w') ∧ step_ok w cs w' cs'.
Proof.
  intros Hrep Hcap. destruct (decide (k ∈ keys_of cs)) as [Hk|Hk].
  - destruct (keys_of_split _ _ Hk) as (xs & c & ys & -> & Hkc).
    destruct (add_hit _ _ _ _ k v t Hrep Hkc) as (w' & Hrun & Hrep' & Hev & Hcfg & _).
    eexists _, w', _. split; [exact Hrun|].
    eapply step_reorder; try done.
    rewrite keys_of_middle. simpl. by rewrite Hkc.
  - destruct (add_miss _ _ _ v t Hrep Hk) as (w' & a & p & Hrun & Hrep' & Hev & Hcfg & _).
    cbv zeta in *.
    destruct (cfg_inv _ _ Hcfg) as (Hs & _ & _ & Hon & _ & Hcl).
    set (cn := (a, p, mkEntry k v (clock w (ticks w) + t))) in *.
    destruct (over_capacity w (S (length cs))) eqn:Hover.
    + unfold over_capacity in Hover. apply andb_prop in Hover as [Hpos Hlt].
      apply Z.ltb_lt in Hpos, Hlt.
      destruct cs as [|cl cs0 _] using rev_ind; [simpl in Hlt; lia|].
      change (cn :: cs0 ++ [cl]) with ((cn :: cs0) ++ [cl]) in *.
      rewrite removelast_last in Hrep'. rewrite last_snoc in Hev. simpl in Hev.
      exists true, w', (cn :: cs0). split; [exact Hrun|].
      unfold step_ok. split_and!; try done.
      * unfold cap_ok. rewrite Hs. intros _. specialize (Hcap Hpos).
        rewrite length_app in Hcap. simpl in *. lia.
      * exists (fired (onEvicted (cache w)) (c_entry cl)), cs0, [cl].
        split; [done|]. split.
        -- unfold fired, fired_all. destruct (onEvicted (cache w)); simpl; done.
        -- split; [done|]. right. exists k. split; [done|]. done.
      * by rewrite Hs.
    + exists false, w', (cn :: cs). split; [exact Hrun|].
      unfold step_ok. split_and!; try done.
      * unfold cap_ok. rewrite Hs. intros Hpos. unfold over_capacity in Hover.
        apply andb_false_iff in Hover as [Hover|Hover].
        -- apply Z.ltb_ge in Hover. lia.
        -- apply Z.ltb_ge in Hover. cbn [length]. lia.
      * exists [], cs, []. split_and!.
        -- by rewrite Hev.
        -- unfold fired_all. by destruct (onEvicted (cache w)).
        -- split; [by rewrite app_nil_r|]. right. by exists k.
      * by rewrite Hs.
Qed.

Lemma Get_step w cs k :
  rep_cells w cs → cap_ok w cs →
  ∃ r w' cs', Get zeroV k w = Some (r, w') ∧ step_ok w cs w' cs'.
Proof.
  intros Hrep Hcap. destruct (decide (k ∈ keys_of cs)) as [Hk|Hk].
  - destruct (keys_of_split _ _ Hk) as (xs & c & ys & -> & <-).
    destruct (After (clock w (ticks w)) (expiresAt (c_entry c))) eqn:Hexp.
    + eexists _, _, _. split; [by apply (Get_expired zeroV _ xs c ys)|]. by apply step_same.
    + destruct (Get_live zeroV _ _ _ _ Hrep Hexp) as (w' & Hrun & Hrep' & Hev & Hcfg & _).
      eexists _, w', _. split; [exact Hrun|].
      eapply step_reorder; try done. by rewrite keys_of_middle.
  - eexists _, _, _. split; [by eapply Get_miss|]. by apply step_same.
Qed.

Lemma Resize_step w cs n :
  rep_cells w cs → cap_ok w cs →
  ∃ r w' cs', Resize n w = Some (r, w') ∧ step_ok w cs w' cs'.
Proof.
  intros Hrep Hcap. destruct (Z.leb_spec n 0) as [Hn|Hn].
  - exists 0, w, cs. split; [|by apply step_same].
    unfold Resize. by destruct (Z.leb_spec n 0); [|lia].
  - destruct (Resize_spec _ _ n Hrep Hn)
      as (w' & Hrun & Hrep' & Hev & Hs & Hon & _ & _ & Hcl & _).
    cbv zeta in *. set (d := Z.to_nat _) in *.
    eexists _, w', _. split; [exact Hrun|]. unfold step_ok. split_and!; try done.
    + unfold cap_ok. rewrite Hs. intros _. rewrite length_take. lia.
    + eexists _, _, _. split; [exact Hev|]. split; [done|]. split; [|by left].
      rewrite reverse_Permutation. by rewrite take_drop.
    + by rewrite Hs.
Qed.

Lemma exec_step w cs (o : op) :
  rep_cells w cs → cap_ok w cs →
  ∃ w' cs', exec zeroK zeroV o w = Some (tt, w') ∧ step_ok w cs w' cs'.
Proof.
  intros Hrep Hcap. destruct o as [k v|k v t|k|k| |k|k| | | | | |n]; cbn [exec].
  - destruct (add_step w cs k v (ttl (cache w)) Hrep Hcap) as (b & w' & cs' & Hrun & Hstep).
    exists w', cs'. split; [|done]. unfold bind, Add, gets. unfold bind. by rewrite Hrun.
  - destruct (add_step w cs k v t Hrep Hcap) as (b & w' & cs' & Hrun & Hstep).
    exists w', cs'. split; [|done]. unfold bind, AddWithTTL. by rewrite Hrun.
  - destruct (Get_step w cs k Hrep Hcap) as (r & w' & cs' & Hrun & Hstep).
    exists w', cs'. split; [|done]. unfold bind. by rewrite Hrun.
  - destruct (decide (k ∈ keys_of cs)) as [Hk|Hk].
    + destruct (keys_of_split _ _ Hk) as (xs & c & ys & -> & <-).
      eexists _, _. unfold bind. rewrite (Peek_hit zeroV _ _ _ _ Hrep).
      split; [done|]. by apply step_same.
    + eexists _, _. unfold bind. rewrite (Peek_miss zeroV _ _ _ Hrep Hk).
      split; [done|]. by apply step_same.
  - exists w, cs. split; [|by apply step_same]. unfold bind.
    destruct cs as [|c cs _] using rev_ind.
    + by rewrite (GetOldest_nil _ _ _ Hrep).
    + by rewrite (GetOldest_snoc _ _ _ _ _ Hrep).
  - exists w, cs. split; [|by apply step_same]. unfold bind.
    by rewrite (Contains_spec _ _ _ Hrep).
  - destruct (decide (k ∈ keys_of cs)) as [Hk|Hk].
    + destruct (keys_of_split _ _ Hk) as (xs & c & ys & -> & <-).
      destruct (Remove_hit _ _ _ _ Hrep) as (w' & Hrun & Hrep' & Hev & Hcfg & _).
      exists w', (xs ++ ys). unfold bind. rewrite Hrun. split; [done|].
      eapply (step_shrink _ _ _ _ [c]); try done;
        try (unfold fired, fired_all; destruct (onEvicted (cache w)); simpl; done).
      rewrite <- Permutation_middle. apply Permutation_cons_append.
    + exists w, cs. unfold bind. rewrite (Remove_miss _ _ _ Hrep Hk).
      split; [done|]. by apply step_same.
  - destruct cs as [|c cs _] using rev_ind.
    + exists w, []. unfold bind. rewrite (RemoveOldest_nil _ _ _ Hrep).
      split; [done|]. by apply step_same.
    + destruct (RemoveOldest_snoc zeroK zeroV _ _ _ Hrep) as (w' & Hrun & Hrep' & Hev & Hcfg & _).
      exists w', cs. unfold bind. rewrite Hrun. split; [done|].
      eapply (step_shrink _ _ _ _ [c]); try done;
        try (unfold fired, fired_all; destruct (onEvicted (cache w)); simpl; done).
  - exists w, cs. split; [|by apply step_same]. unfold bind, Keys.
    by rewrite (keys_spec _ _ Hrep).
  - destruct (Purge_spec _ _ Hrep) as (w' & evs & Hrun & Hrep' & Hev & Hevs & Hcfg & _).
    exists w', []. split; [done|]. by eapply (step_shrink _ _ _ _ cs).
  - destruct (deleteExpired_spec _ _ Hrep) as (w' & Hrun & Hrep' & Hev & Hcfg & _).
    eexists w', _. split; [exact Hrun|].
    eapply step_shrink; try done.
    rewrite reverse_Permutation.
    rewrite <- kept_reaped_perm. by rewrite reverse_Permutation.
  - exists w, cs. split; [|by apply step_same]. unfold bind.
    by rewrite (cache_Len_spec _ _ Hrep).
  - destruct (Resize_step w cs n Hrep Hcap) as (r & w' & cs' & Hrun & Hstep).
    exists w', cs'. split; [|done]. unfold bind. by rewrite Hrun.
Qed.

Lemma exec_all_inv (os : list (op (K:=K) (V:=V))) : ∀ w cs,
  rep_cells w cs → cap_ok w cs →
  ∃ w' cs', exec_all zeroK zeroV os w = Some (tt, w') ∧
    rep_cells w' cs' ∧ cap_ok w' cs' ∧
    (0 < size_ (cache w) → 0 < size_ (cache w')).
Proof.
  induction os as [|o os IH]; intros w cs Hrep Hcap.
  - by exists w, cs.
  - destruct (exec_step w cs o Hrep Hcap) as (w1 & cs1 & Hrun & Hrep1 & Hcap1 & _ & _ & _ & Hs1).
    destruct (IH w1 cs1 Hrep1 Hcap1) as (w' & cs' & Hrun' & Hrep' & Hcap' & Hs').
    exists w', cs'. cbn [exec_all]. unfold bind. rewrite Hrun. split_and!; try done.
    intros. by apply Hs', Hs1.
Qed.

Lemma reached_inv (w0 w : world) size on ttl0 pe os :
  reached_from zeroK zeroV w0 size on ttl0 pe os w →
  ∃ cs, rep_cells w cs ∧ cap_ok w cs ∧ (0 < size → 0 < size_ (cache w)).
Proof.
  unfold reached_from, bind. intros Hrun.
  destruct (NewLRU_spec w0 size on ttl0 pe) as (w1 & Hnew & Hrep1 & Hs & _).
  rewrite Hnew in Hrun.
  destruct (exec_all_inv os w1 [] Hrep1) as (w' & cs & Hrun' & Hrep & Hcap & Hpos).
  { unfold cap_ok. simpl. lia. }
  rewrite Hrun' in Hrun. injection Hrun as <-.
  exists cs. split_and!; try done. intros. apply Hpos. lia.
Qed.

(** Every sequence of calls returns. *)
Lemma reached_total (w0 : world) size on ttl0 pe os :
  ∃ w, reached_from zeroK zeroV w0 size on ttl0 pe os w.
Proof.
  unfold reached_from, bind.
  destruct (NewLRU_spec w0 size on ttl0 pe) as (w1 & Hnew & Hrep1 & Hs & _).
  rewrite Hnew.
  destruct (exec_all_inv os w1 [] Hrep1) as (w' & cs & Hrun' & _).
  { unfold cap_ok. simpl. lia. }
  by exists w'.
Qed.

End reach_facts.

Section observation_facts.

Context {K : Type} `{Countable K} {V : Type}.
Variables (zeroK : K) (zeroV : V).

Local Abbreviation entry := (expirableEntry (K:=K) (V:=V)).
Local Abbreviation world := (world (K:=K) (V:=V)).
Local Abbreviation cell := (loc * loc * entry)%type.

Implicit Types (w : world) (cs xs ys : list cell) (c : cell) (k : K) (v : V).

Lemma rep_cells_NoDup w cs : rep_cells w cs → NoDup (keys_of cs).
Proof. intros (_ & _ & _ & _ & _ & Hnd & _). by rewrite index_keys in Hnd. Qed.

Lemma rep_cells_dom w cs :
  rep_cells w cs → dom (items (cache w)) = list_to_set (keys_of cs).
Proof.
  intros (_ & _ & _ & _ & _ & _ & ->). rewrite dom_list_to_map_L. by rewrite index_keys.
Qed.

Lemma rep_cells_lookup w cs k e :
  rep_cells w cs →
  items (cache w) !! k = Some e ↔ ∃ c, c ∈ cs ∧ key (c_entry c) = k ∧ e = Some (c_elem c).
Proof.
  intros (_ & _ & _ & _ & _ & Hnd & ->).
  rewrite <- elem_of_list_to_map by done. unfold index. rewrite list_elem_of_fmap. split.
  - intros (c & [= -> ->] & Hc). by exists c.
  - intros (c & Hc & <- & ->). by exists c.
Qed.

Lemma rep_cells_entry_of w cs c :
  rep_cells w cs → c ∈ cs → entry_of w (key (c_entry c)) = Some (c_entry c).
Proof.
  intros Hrep Hc. unfold entry_of.
  assert (items (cache w) !! key (c_entry c) = Some (Some (c_elem c))) as ->.
  { apply (rep_cells_lookup _ _ _ _ Hrep). by exists c. }
  apply entry_at_cell. destruct Hrep as (_ & _ & _ & _ & Hok & _).
  rewrite Forall_forall in Hok. by apply Hok.
Qed.

Lemma rep_cells_entry_of_inv w cs k en :
  rep_cells w cs → entry_of w k = Some en → ∃ c, c ∈ cs ∧ key (c_entry c) = k ∧ c_entry c = en.
Proof.
  intros Hrep Hen. unfold entry_of in Hen.
  destruct (items (cache w) !! k) as [e|] eqn:E; [|done].
  apply (rep_cells_lookup _ _ _ _ Hrep) in E as (c & Hc & Hk & ->).
  exists c. split_and!; try done.
  pose proof (rep_cells_entry_of _ _ _ Hrep Hc) as Hc'. unfold entry_of in Hc'.
  assert (items (cache w) !! key (c_entry c) = Some (Some (c_elem c))) as Hit.
  { apply (rep_cells_lookup _ _ _ _ Hrep). by exists c. }
  rewrite Hit in Hc'. congruence.
Qed.

Lemma rep_cells_entry_of_None w cs k :
  rep_cells w cs → k ∉ keys_of cs → entry_of w k = None.
Proof.
  intros Hrep Hk. unfold entry_of. by rewrite (rep_cells_absent _ _ _ Hrep Hk).
Qed.

Lemma rep_cells_walk w cs :
  rep_cells w cs →
  in_mem (walk (evictList (cache w))) w = Some (c_elem <$> cs, w).
Proof.
  intros (l & Hl & Hlist & _). rewrite Hl.
  erewrite in_mem_run by (by apply walk_spec). by rewrite with_mem_id.
Qed.

Lemma rep_cells_elems_NoDup w cs : rep_cells w cs → NoDup (c_elem <$> cs).
Proof. intros (l & _ & (Hnd & _) & _). by apply NoDup_cons in Hnd as [_ ?]. Qed.

End observation_facts.

Section bijection_claim.

Context {K : Type} `{Countable K} {V : Type}.
Variables (zeroK : K) (zeroV : V).

Local Abbreviation entry := (expirableEntry (K:=K) (V:=V)).
Local Abbreviation world := (world (K:=K) (V:=V)).
Local Abbreviation cell := (loc * loc * entry)%type.

Implicit Types (w : world) (cs xs ys : list cell) (c : cell) (k : K) (v : V).

Lemma reachable_rep w :
  reachable zeroK zeroV w → ∃ cs, rep_cells w cs ∧ cap_ok w cs.
Proof.
  intros (w0 & size & on & ttl0 & pe & os & Hr).
  destruct (reached_inv _ _ _ _ _ _ _ _ _ Hr) as (cs & ? & ? & _). by exists cs.
Qed.

Lemma node_key_cell w cs c :
  rep_cells w cs → c ∈ cs → node_key w (c_elem c) = Some (key (c_entry c)).
Proof.
  intros (_ & _ & _ & _ & Hok & _) Hc. unfold node_key.
  rewrite Forall_forall in Hok. by rewrite (entry_at_cell _ _ (Hok _ Hc)).
Qed.

(** C1: in every reachable state the map and the list are in bijection: the
    walk of the eviction list ends and meets distinct nodes, each with an
    entry; the map sends a key to a node exactly when that node is on the
    list and carries the key; no two nodes of the list carry the same key;
    the keys of the map are the keys met by the walk, and by [Keys]; and
    [Len], the size of the map and the length of the walk agree. *)
Theorem bijection_invariant w :
  reachable zeroK zeroV w →
  ∃ (ns : list loc) (ks : list K),
    in_mem (walk (evictList (cache w))) w = Some (ns, w) ∧
    NoDup ns ∧
    (∀ a, a ∈ ns → is_Some (node_key w a)) ∧
    (∀ k e, items (cache w) !! k = Some e ↔
            ∃ a, e = Some a ∧ a ∈ ns ∧ node_key w a = Some k) ∧
    (∀ a b, a ∈ ns → b ∈ ns → node_key w a = node_key w b → a = b) ∧
    Keys w = Some (ks, w) ∧
    Some <$> ks = reverse (node_key w <$> ns) ∧
    dom (items (cache w)) = list_to_set ks ∧
    LRU.Len w = Some (Z.of_nat (length ns), w) ∧
    size (items (cache w)) = length ns ∧
    length ks = length ns.
Proof.
  intros Hr. destruct (reachable_rep _ Hr) as (cs & Hrep & _).
  exists (c_elem <$> cs), (reverse (keys_of cs)).
  assert (Hnk : node_key w <$> (c_elem <$> cs) = Some <$> keys_of cs).
  { unfold keys_of. rewrite <- !list_fmap_compose. apply list_fmap_ext.
    intros i c Hc. simpl. eapply node_key_cell; [done|]. by eapply list_elem_of_lookup_2. }
  split_and!.
  - by apply rep_cells_walk.
  - by eapply rep_cells_elems_NoDup.
  - intros a (c & -> & Hc)%list_elem_of_fmap. rewrite (node_key_cell _ _ _ Hrep Hc). eauto.
  - intros k e. rewrite (rep_cells_lookup _ _ _ _ Hrep). split.
    + intros (c & Hc & <- & ->). exists (c_elem c). split_and!; [done| |].
      * by apply list_elem_of_fmap_2.
      * by eapply node_key_cell.
    + intros (a & -> & (c & -> & Hc)%list_elem_of_fmap & Hk).
      rewrite (node_key_cell _ _ _ Hrep Hc) in Hk. injection Hk as <-. by exists c.
  - intros a b (c1 & -> & Hc1)%list_elem_of_fmap (c2 & -> & Hc2)%list_elem_of_fmap.
    rewrite (node_key_cell _ _ _ Hrep Hc1), (node_key_cell _ _ _ Hrep Hc2).
    intros [= Hk]. f_equal.
    eapply (NoDup_fmap_eq (λ c, key (c_entry c))); [|done..].
    pose proof (rep_cells_NoDup _ _ Hrep) as Hnd. unfold keys_of in Hnd.
    by rewrite <- list_fmap_compose in Hnd.
  - by apply keys_spec.
  - rewrite Hnk. by rewrite fmap_reverse.
  - rewrite (rep_cells_dom _ _ Hrep). apply set_eq. intros k.
    rewrite !elem_of_list_to_set. by rewrite elem_of_reverse.
  - rewrite (cache_Len_spec _ _ Hrep). by rewrite length_fmap.
  - rewrite (rep_cells_size _ _ Hrep). by rewrite length_fmap.
  - rewrite length_reverse. unfold keys_of. by rewrite !length_fmap.
Qed.

End bijection_claim.

Section capacity_claim.

Context {K : Type} `{Countable K} {V : Type}.
Variables (zeroK : K) (zeroV : V).

Local Abbreviation entry := (expirableEntry (K:=K) (V:=V)).
Local Abbreviation world := (world (K:=K) (V:=V)).
Local Abbreviation cell := (loc * loc * entry)%type.

Implicit Types (w : world) (cs xs ys : list cell) (c : cell) (k : K) (v : V).

Lemma add_cases w cs k v t :
  rep_cells w cs →
  ∃ b w' cs', add k v t w = Some (b, w') ∧ rep_cells w' cs' ∧
    cfg w' = cfg w ∧ ticks w' = S (ticks w) ∧
    add_outcome w cs k v t b w' cs'.
Proof.
  intros Hrep. destruct (decide (k ∈ keys_of cs)) as [Hk|Hk].
  - destruct (keys_of_split _ _ Hk) as (xs & c & ys & -> & Hkc).
    destruct (add_hit _ _ _ _ k v t Hrep Hkc) as (w' & Hrun & Hrep' & Hev & Hcfg & Ht).
    eexists false, w', _. split_and!; try done. left. by exists xs, c, ys.
  - destruct (add_miss _ _ _ v t Hrep Hk) as (w' & a & p & Hrun & Hrep' & Hev & Hcfg & Ht).
    cbv zeta in *.
    set (cn := (a, p, mkEntry k v (clock w (ticks w) + t))) in *.
    destruct (over_capacity w (S (length cs))) eqn:Hover.
    + unfold over_capacity in Hover. apply andb_prop in Hover as [Hpos Hlt].
      apply Z.ltb_lt in Hpos, Hlt.
      destruct cs as [|cl cs0 _] using rev_ind; [simpl in Hlt; lia|].
      change (cn :: cs0 ++ [cl]) with ((cn :: cs0) ++ [cl]) in *.
      rewrite removelast_last in Hrep'. rewrite last_snoc in Hev. simpl in Hev.
      exists true, w', (cn :: cs0). split_and!; try done.
      right. right. split_and!; try done. by exists a, p, cs0, cl.
    + exists false, w', (cn :: cs). split_and!; try done.
      right. left. split_and!; try done.
      * by exists a, p.
      * by rewrite Hev, app_nil_r.
      * unfold over_capacity in Hover. apply andb_false_iff in Hover as [Hover|Hover];
          apply Z.ltb_ge in Hover; lia.
Qed.

Lemma Add_is_add k v w : Add k v w = add k v (ttl (cache w)) w.
Proof. done. Qed.

(** C2: on a cache built with a positive capacity, after [Add] or
    [AddWithTTL] returns, [Len] and the size of the map are at most the
    capacity; the call takes at most one key out of the map, exactly one when
    it returns [true] and none when it returns [false], and [onEvicted] is
    called as many times. *)
Theorem capacity_invariant (w0 w : world) cap on ttl0 pe os k v (t : Z)
    (call : M world bool) :
  0 < cap →
  reached_from zeroK zeroV w0 cap on ttl0 pe os w →
  call = Add k v ∨ call = AddWithTTL k v t →
  ∃ b w' n evs,
    call w = Some (b, w') ∧
    0 < size_ (cache w') ∧
    LRU.Len w' = Some (n, w') ∧ n ≤ size_ (cache w') ∧
    Z.of_nat (size (items (cache w'))) ≤ size_ (cache w') ∧
    dom (items (cache w')) ⊆ {[k]} ∪ dom (items (cache w)) ∧
    size (({[k]} ∪ dom (items (cache w))) ∖ dom (items (cache w'))) =
      (if b then 1 else 0)%nat ∧
    evlog w' = evlog w ++ evs ∧
    length evs = (if b && onEvicted (cache w) then 1 else 0)%nat.
Proof.
  intros Hsize Hr Hcall.
  destruct (reached_inv _ _ _ _ _ _ _ _ _ Hr) as (cs & Hrep & Hcap & Hpos).
  specialize (Hpos Hsize). specialize (Hcap Hpos).
  assert (∃ t', call w = add k v t' w) as [t' ->].
  { destruct Hcall as [-> | ->]; [by exists (ttl (cache w))|by exists t]. }
  destruct (add_cases w cs k v t' Hrep) as (b & w' & cs' & Hrun & Hrep' & Hcfg & _ & Hout).
  destruct (cfg_inv _ _ Hcfg) as (Hs & _ & _ & Hon & _ & _).
  pose proof (rep_cells_NoDup _ _ Hrep) as Hnd.
  exists b, w', (Z.of_nat (length cs')).
  rewrite (cache_Len_spec _ _ Hrep'), (rep_cells_size _ _ Hrep'), Hs.
  rewrite (rep_cells_dom _ _ Hrep), (rep_cells_dom _ _ Hrep').
  destruct Hout as [(xs & c & ys & -> & Hk & -> & -> & Hev)
                   |[(Hk & -> & (a & p & ->) & Hev & Hfit)
                    |(Hk & -> & (a & p & cs0 & cl & -> & -> & Hev) & Hover)]].
  - exists []. rewrite app_nil_r.
    assert (Hlen : length ((c_elem c, c_ptr c, mkEntry k v (clock w (ticks w) + t')) :: xs ++ ys)
                   = length (xs ++ c :: ys)).
    { simpl. rewrite !length_app. simpl. lia. }
    rewrite Hlen. split_and!; try done.
    + unfold keys_of. simpl. rewrite !fmap_app. simpl. rewrite !list_to_set_app_L. simpl.
      rewrite Hk. set_solver.
    + assert (({[k]} ∪ list_to_set (keys_of (xs ++ c :: ys))) ∖
              list_to_set (keys_of ((c_elem c, c_ptr c, mkEntry k v (clock w (ticks w) + t'))
                                      :: xs ++ ys)) = (∅ : gset K)) as ->;
        [|by rewrite size_empty].
      unfold keys_of. simpl. rewrite !fmap_app. simpl. rewrite !list_to_set_app_L. simpl.
      rewrite Hk. set_solver.
  - exists []. rewrite app_nil_r. split_and!; try done.
    + simpl length in *. lia.
    + simpl length in *. lia.
    + assert (({[k]} ∪ list_to_set (keys_of cs)) ∖
              list_to_set (keys_of ((a, p, mkEntry k v (clock w (ticks w) + t')) :: cs))
              = (∅ : gset K)) as ->; [|by rewrite size_empty].
      unfold keys_of. simpl. set_solver.
  - exists (fired (onEvicted (cache w)) (c_entry cl)).
    rewrite length_app in Hcap, Hover. simpl in Hcap, Hover.
    split_and!; try done.
    + simpl length. lia.
    + simpl length. lia.
    + unfold keys_of. simpl. rewrite !fmap_app. rewrite !list_to_set_app_L. set_solver.
    + assert (({[k]} ∪ list_to_set (keys_of (cs0 ++ [cl]))) ∖
              list_to_set (keys_of ((a, p, mkEntry k v (clock w (ticks w) + t')) :: cs0))
              = ({[key (c_entry cl)]} : gset K)) as ->; [|by rewrite size_singleton].
      rewrite keys_of_app in Hnd, Hk. apply NoDup_app in Hnd as (_ & Hd & _).
      assert (key (c_entry cl) ∉ keys_of cs0).
      { intros ?. eapply Hd; [done|]. simpl. apply list_elem_of_here. }
      assert (key (c_entry cl) ≠ k).
      { intros <-. apply Hk. apply elem_of_app. right. simpl. apply list_elem_of_here. }
      rewrite keys_of_app. unfold keys_of at 2 3. simpl.
      rewrite list_to_set_app_L. simpl. 
      assert (key (c_entry cl) ∉ (list_to_set (keys_of cs0) : gset K))
        by (by rewrite elem_of_list_to_set).
      set_solver.
    + unfold fired. simpl. by destruct (onEvicted (cache w)).
Qed.

End capacity_claim.

Section refresh_expiry_claims.

Context {K : Type} `{Countable K} {V : Type}.
Variables (zeroK : K) (zeroV : V).

Local Abbreviation entry := (expirableEntry (K:=K) (V:=V)).
Local Abbreviation world := (world (K:=K) (V:=V)).
Local Abbreviation cell := (loc * loc * entry)%type.

Implicit Types (w : world) (cs xs ys : list cell) (c : cell) (k : K) (v : V).

Lemma rep_cells_present w cs k :
  rep_cells w cs → is_Some (items (cache w) !! k) → k ∈ keys_of cs.
Proof.
  intros Hrep [e He]. apply (rep_cells_lookup _ _ _ _ Hrep) in He as (c & Hc & <- & _).
  unfold keys_of. rewrite <- list_fmap_compose. by apply (list_elem_of_fmap_2 (key ∘ c_entry)).
Qed.

(** C4: [Add] and [AddWithTTL] on a key that is in the map return [false];
    the map is unchanged, so the key keeps its node, and the node keeps its
    entry pointer; the entry now holds the new value and the reading of the
    clock plus the ttl, whether or not it had expired; the key becomes the
    newest of [Keys], the others keeping their order; [onEvicted] is not
    called and [Len] is unchanged. *)
Theorem refresh_semantics w k v (t : Z) (call : M world bool) :
  reachable zeroK zeroV w →
  is_Some (items (cache w) !! k) →
  (call = Add k v ∧ t = ttl (cache w)) ∨ call = AddWithTTL k v t →
  ∃ w' ks n,
    call w = Some (false, w') ∧
    items (cache w') = items (cache w) ∧
    (∀ a, items (cache w) !! k = Some (Some a) →
          fld Value (elems (mem w')) a = fld Value (elems (mem w)) a) ∧
    entry_of w' k = Some (mkEntry k v (clock w (ticks w) + t)) ∧
    Keys w = Some (ks, w) ∧
    Keys w' = Some (filter (λ j, j ≠ k) ks ++ [k], w') ∧
    evlog w' = evlog w ∧
    LRU.Len w = Some (n, w) ∧ LRU.Len w' = Some (n, w').
Proof.
  intros Hr Hin Hcall. destruct (reachable_rep _ _ _ Hr) as (cs & Hrep & _).
  pose proof (rep_cells_present _ _ _ Hrep Hin) as Hk.
  destruct (keys_of_split _ _ Hk) as (xs & c & ys & -> & Hkc).
  destruct (add_hit _ _ _ _ k v t Hrep Hkc) as (w' & Hrun & Hrep' & Hev & Hcfg & Ht).
  assert (call w = add k v t w) as Hc.
  { destruct Hcall as [[-> ->] | ->]; done. }
  set (c' := (c_elem c, c_ptr c, mkEntry k v (clock w (ticks w) + t))) in *.
  exists w', (reverse (keys_of (xs ++ c :: ys))), (Z.of_nat (length (xs ++ c :: ys))).
  pose proof (rep_cells_NoDup _ _ Hrep) as Hnd.
  split_and!.
  - by rewrite Hc.
  - destruct Hrep as (_ & _ & _ & _ & _ & Hnd1 & ->).
    destruct Hrep' as (_ & _ & _ & _ & _ & Hnd2 & ->).
    symmetry. apply list_to_map_proper; [done|].
    rewrite (index_middle xs c ys). simpl. by rewrite Hkc.
  - intros a Ha. rewrite <- Hkc in Ha.
    rewrite (rep_cells_item _ _ _ _ Hrep) in Ha. injection Ha as <-.
    destruct (rep_cells_cell _ _ _ _ Hrep) as [-> _].
    destruct (rep_cells_cell w' [] c' (xs ++ ys) Hrep') as [Hv' _].
    subst c'. cbn [c_elem c_ptr fst snd] in Hv'. by rewrite Hv'.
  - apply (rep_cells_entry_of w' _ c' Hrep'). apply list_elem_of_here.
  - by apply keys_spec.
  - unfold Keys. rewrite (keys_spec _ _ Hrep'). do 2 f_equal.
    assert (Hf : filter (λ j, j ≠ k) (keys_of (xs ++ c :: ys)) = keys_of (xs ++ ys)).
    { rewrite !keys_of_app in Hnd |- *.
      change (keys_of (c :: ys)) with (key (c_entry c) :: keys_of ys) in Hnd |- *.
      rewrite Hkc in Hnd |- *. rewrite (keys_of_app xs ys). by apply filter_ne_middle. }
    rewrite filter_reverse, Hf.
    change (keys_of (c' :: xs ++ ys)) with (k :: keys_of (xs ++ ys)).
    by rewrite reverse_cons.
  - done.
  - by apply cache_Len_spec.
  - rewrite (cache_Len_spec _ _ Hrep'). do 3 f_equal. simpl. rewrite !length_app. simpl. lia.
Qed.

(** C5: [Get] on a key whose entry has expired returns not-found and only
    reads the clock: the key is still in the map ([Contains] is [true]), its
    entry is still there, and [Len] is unchanged. *)
Theorem expired_get_keeps w k (en : entry) :
  reachable zeroK zeroV w →
  entry_of w k = Some en →
  expiresAt en < clock w (ticks w) →
  ∃ n, LRU.Len w = Some (n, w) ∧
    Get zeroV k w = Some ((zeroV, false), ticked w) ∧
    Contains k (ticked w) = Some (true, ticked w) ∧
    entry_of (ticked w) k = Some en ∧
    LRU.Len (ticked w) = Some (n, ticked w).
Proof.
  intros Hr Hen Hexp. destruct (reachable_rep _ _ _ Hr) as (cs & Hrep & _).
  destruct (rep_cells_entry_of_inv _ _ _ _ Hrep Hen) as (c & Hc & <- & <-).
  apply list_elem_of_split in Hc as (xs & ys & ->).
  assert (Hrep' : rep_cells (ticked w) (xs ++ c :: ys)) by (by eapply rep_cells_ext; [..|exact Hrep]).
  exists (Z.of_nat (length (xs ++ c :: ys))). split_and!.
  - by apply cache_Len_spec.
  - apply (Get_expired zeroV _ xs c ys Hrep). by apply Z.ltb_lt.
  - rewrite (Contains_spec _ _ _ Hrep'). do 2 f_equal. apply bool_decide_eq_true_2.
    change (key (c_entry c) ∈ keys_of (xs ++ c :: ys)). rewrite keys_of_app. apply elem_of_app. right. simpl. apply list_elem_of_here.
  - done.
  - by apply cache_Len_spec.
Qed.

End refresh_expiry_claims.

Section ttl_order_claims.

Context {K : Type} `{Countable K} {V : Type}.
Variables (zeroK : K) (zeroV : V).

Local Abbreviation entry := (expirableEntry (K:=K) (V:=V)).
Local Abbreviation world := (world (K:=K) (V:=V)).
Local Abbreviation cell := (loc * loc * entry)%type.

Implicit Types (w : world) (cs xs ys : list cell) (c : cell) (k : K) (v : V).

Lemma add_outcome_front w cs k v t b w' cs' :
  add_outcome w cs k v t b w' cs' →
  ∃ c rest, cs' = c :: rest ∧ c_entry c = mkEntry k v (clock w (ticks w) + t).
Proof.
  intros [(xs & c & ys & _ & _ & _ & -> & _)
         |[(_ & _ & (a & p & ->) & _)|(_ & _ & (a & p & cs0 & cl & _ & -> & _) & _)]];
    by eexists _, _.
Qed.

(** C10: [AddWithTTL] with a ttl that is not positive stores the reading of
    the clock plus that ttl as it is (only [NewLRU] replaces such a ttl by
    [noEvictionTTL]); as long as the cache is in that state, at every
    strictly later reading of the clock [Get] and [Peek] return not-found for
    the key, while [Contains] is [true], the key is among [Keys] and [Len]
    and the size of the map count it. *)
Theorem nonpositive_ttl_kept w k v (t : Z) :
  reachable zeroK zeroV w → t ≤ 0 →
  (∀ (w0 : world) cap on pe, ∃ w0',
      NewLRU cap on t pe w0 = Some (tt, w0') ∧ ttl (cache w0') = noEvictionTTL) ∧
  ∃ b w1,
    AddWithTTL k v t w = Some (b, w1) ∧
    entry_of w1 k = Some (mkEntry k v (clock w (ticks w) + t)) ∧
    clock w (ticks w) + t ≤ clock w (ticks w) ∧
    ∀ w2 : world,
      mem w2 = mem w1 → ents w2 = ents w1 → cache w2 = cache w1 →
      clock w (ticks w) < clock w2 (ticks w2) →
      Get zeroV k w2 = Some ((zeroV, false), ticked w2) ∧
      Peek zeroV k w2 = Some ((zeroV, false), ticked w2) ∧
      Contains k w2 = Some (true, w2) ∧
      ∃ n ks, LRU.Len w2 = Some (n, w2) ∧ 1 ≤ n ∧
        Z.of_nat (size (items (cache w2))) = n ∧
        Keys w2 = Some (ks, w2) ∧ k ∈ ks.
Proof.
  intros Hr Ht. split.
  { intros w0 cap on pe.
    destruct (NewLRU_spec w0 cap on t pe) as (w0' & Hrun & _ & _ & Httl & _).
    exists w0'. split; [done|]. rewrite Httl. by destruct (Z.leb_spec t 0); [|lia]. }
  destruct (reachable_rep _ _ _ Hr) as (cs & Hrep & _).
  destruct (add_cases w cs k v t Hrep) as (b & w1 & cs' & Hrun & Hrep' & _ & _ & Hout).
  destruct (add_outcome_front _ _ _ _ _ _ _ _ Hout) as (c & rest & -> & Hc).
  exists b, w1. split_and!; [done| |lia|].
  { pose proof (rep_cells_entry_of w1 _ c Hrep') as He. rewrite Hc in He.
    apply He. apply list_elem_of_here. }
  intros w2 Hm He Hca Hlater.
  assert (Hrep2 : rep_cells w2 ([] ++ c :: rest)) by (by eapply rep_cells_ext; [..|exact Hrep']).
  assert (Hk : key (c_entry c) = k) by (by rewrite Hc).
  assert (Hexp : After (clock w2 (ticks w2)) (expiresAt (c_entry c)) = true).
  { rewrite Hc. simpl. apply Z.ltb_lt. lia. }
  split_and!.
  - rewrite <- Hk. by apply (Get_expired zeroV _ [] c rest).
  - rewrite <- Hk. rewrite (Peek_hit zeroV _ [] c rest Hrep2). by rewrite Hexp.
  - rewrite (Contains_spec _ _ _ Hrep2). do 2 f_equal. apply bool_decide_eq_true_2.
    simpl. rewrite Hk. apply list_elem_of_here.
  - exists (Z.of_nat (length (c :: rest))), (reverse (keys_of (c :: rest))). split_and!.
    + by apply (cache_Len_spec _ _ Hrep2).
    + simpl length. lia.
    + by rewrite (rep_cells_size _ _ Hrep2).
    + by apply (keys_spec _ _ Hrep2).
    + rewrite elem_of_reverse. unfold keys_of. simpl. rewrite Hk. apply list_elem_of_here.
Qed.




End ttl_order_claims.

Section resize_claim.

Context {K : Type} `{Countable K} {V : Type}.
Variables (zeroK : K) (zeroV : V).

Local Abbreviation entry := (expirableEntry (K:=K) (V:=V)).
Local Abbreviation world := (world (K:=K) (V:=V)).
Local Abbreviation cell := (loc * loc * entry)%type.

Implicit Types (w : world) (cs xs ys : list cell) (c : cell) (k : K) (v : V).

Lemma omap_event_of w cs l :
  rep_cells w cs → l ⊆ cs →
  omap (event_of w) (keys_of l) = (λ en : entry, (key en, value en)) <$> (c_entry <$> l).
Proof.
  intros Hrep. induction l as [|c l IH]; intros Hsub; [done|].
  change (keys_of (c :: l)) with (key (c_entry c) :: keys_of l).
  cbn [omap list_omap fmap list_fmap]. unfold event_of at 1.
  rewrite (rep_cells_entry_of _ _ c Hrep) by (apply Hsub, list_elem_of_here).
  cbn [fmap option_fmap option_map]. f_equal. apply IH.
  intros x Hx. apply Hsub. by apply list_elem_of_further.
Qed.

Lemma rep_cells_entry_of_sub w w' cs cs' k :
  rep_cells w cs → rep_cells w' cs' → cs' ⊆ cs → k ∈ keys_of cs' →
  entry_of w' k = entry_of w k.
Proof.
  intros Hrep Hrep' Hsub Hk.
  destruct (keys_of_split _ _ Hk) as (xs & c & ys & -> & <-).
  assert (Hc : c ∈ xs ++ c :: ys) by (apply elem_of_app; right; apply list_elem_of_here).
  rewrite (rep_cells_entry_of _ _ c Hrep') by done.
  by rewrite (rep_cells_entry_of _ _ c Hrep) by (by apply Hsub).
Qed.

Lemma holds_keys_of w cs :
  rep_cells w cs →
  holds_keys w (reverse (keys_of cs)) ∧
  NoDup (reverse (keys_of cs)) ∧
  dom (items (cache w)) = list_to_set (reverse (keys_of cs)) ∧
  size (items (cache w)) = length (reverse (keys_of cs)).
Proof.
  intros Hrep. split_and!.
  - by exists cs.
  - rewrite reverse_Permutation. by eapply rep_cells_NoDup.
  - rewrite (rep_cells_dom _ _ Hrep). apply set_eq. intros k.
    rewrite !elem_of_list_to_set. by rewrite elem_of_reverse.
  - rewrite (rep_cells_size _ _ Hrep), length_reverse. unfold keys_of.
    by rewrite !length_fmap.
Qed.

(** C7: [Resize n] with [n <= 0] returns 0 and changes nothing.  With
    [n > 0] on a cache that holds [m] entries (the size of the map, which is
    what [Len] returns, and the number of its keys [ks], oldest first) it
    returns [d = max (m - n) 0], sets the capacity to [n], and evicts the [d]
    oldest keys, oldest first (each is the back of the list when its turn
    comes): afterwards the cache holds the other keys, in their order and
    with their entries, the map has [m - d] keys, and [onEvicted] was called
    on the evicted keys in the order of their eviction. *)
Theorem resize_evicts_oldest w (n : Z) :
  reachable zeroK zeroV w →
  (n ≤ 0 → Resize n w = Some (0, w)) ∧
  (0 < n →
   ∃ m ks w',
     LRU.Len w = Some (m, w) ∧ Keys w = Some (ks, w) ∧
     m = Z.of_nat (size (items (cache w))) ∧
     holds_keys w ks ∧ NoDup ks ∧
     dom (items (cache w)) = list_to_set ks ∧
     Z.of_nat (length ks) = m ∧
     Resize n w = Some (Z.max (m - n) 0, w') ∧
     size_ (cache w') = n ∧
     Keys w' = Some (drop (Z.to_nat (Z.max (m - n) 0)) ks, w') ∧
     holds_keys w' (drop (Z.to_nat (Z.max (m - n) 0)) ks) ∧
     dom (items (cache w')) = list_to_set (drop (Z.to_nat (Z.max (m - n) 0)) ks) ∧
     Z.of_nat (size (items (cache w'))) = m - Z.max (m - n) 0 ∧
     LRU.Len w' = Some (m - Z.max (m - n) 0, w') ∧
     evlog w' = evlog w ++
       (if onEvicted (cache w)
        then omap (event_of w) (take (Z.to_nat (Z.max (m - n) 0)) ks) else []) ∧
     ∀ k, k ∈ drop (Z.to_nat (Z.max (m - n) 0)) ks → entry_of w' k = entry_of w k).
Proof.
  intros Hr. split.
  { intros Hn. unfold Resize. by destruct (Z.leb_spec n 0); [|lia]. }
  intros Hn. destruct (reachable_rep _ _ _ Hr) as (cs & Hrep & _).
  destruct (Resize_spec _ _ n Hrep Hn)
    as (w' & Hrun & Hrep' & Hev & Hs & Hon & _ & _ & Hcl & _).
  cbv zeta in *. set (d := Z.to_nat (Z.max (Z.of_nat (length cs) - n) 0)) in *.
  assert (Hd : (d ≤ length cs)%nat) by lia.
  assert (Hdz : Z.max (Z.of_nat (length cs) - n) 0 = Z.of_nat d) by lia.
  assert (Hlen : length (keys_of cs) = length cs) by (unfold keys_of; by rewrite !length_fmap).
  destruct (holds_keys_of _ _ Hrep) as (Hh & Hnd & Hdom & Hsz).
  destruct (holds_keys_of _ _ Hrep') as (Hh' & _ & Hdom' & Hsz').
  assert (Hdrop : reverse (keys_of (take (length cs - d) cs)) = drop d (reverse (keys_of cs))).
  { rewrite drop_reverse, Hlen. unfold keys_of. by rewrite !fmap_take. }
  rewrite Hdrop in Hh', Hdom', Hsz'.
  exists (Z.of_nat (length cs)), (reverse (keys_of cs)), w'.
  rewrite Hdz, Nat2Z.id.
  split_and!.
  - by apply cache_Len_spec.
  - by apply keys_spec.
  - by rewrite (rep_cells_size _ _ Hrep).
  - exact Hh.
  - exact Hnd.
  - exact Hdom.
  - by rewrite length_reverse, Hlen.
  - done.
  - done.
  - unfold Keys. by rewrite (keys_spec _ _ Hrep'), Hdrop.
  - exact Hh'.
  - exact Hdom'.
  - rewrite Hsz', length_drop, length_reverse, Hlen. lia.
  - rewrite (cache_Len_spec _ _ Hrep'). do 3 f_equal. rewrite length_take. lia.
  - rewrite Hev. f_equal. unfold fired_all. destruct (onEvicted (cache w)); [|done].
    rewrite take_reverse, Hlen.
    assert (reverse (drop (length cs - d) (keys_of cs))
            = keys_of (reverse (drop (length cs - d) cs))) as ->.
    { unfold keys_of. by rewrite !fmap_reverse, !fmap_drop. }
    symmetry. apply (omap_event_of _ cs); [done|].
    intros x Hx. rewrite elem_of_reverse in Hx.
    eapply sublist_subseteq; [apply sublist_drop|exact Hx].
  - intros k Hk. apply (rep_cells_entry_of_sub _ _ cs (take (length cs - d) cs)); try done.
    + apply sublist_subseteq, sublist_take.
    + rewrite drop_reverse, Hlen in Hk. rewrite elem_of_reverse in Hk.
      unfold keys_of. by rewrite !fmap_take.
Qed.

End resize_claim.

Section sweep_claim.

Context {K : Type} `{Countable K} {V : Type}.
Variables (zeroK : K) (zeroV : V).

Local Abbreviation entry := (expirableEntry (K:=K) (V:=V)).
Local Abbreviation world := (world (K:=K) (V:=V)).
Local Abbreviation cell := (loc * loc * entry)%type.

Implicit Types (w : world) (cs xs ys : list cell) (c : cell) (k : K) (v : V).

Lemma keys_of_sublist xs ys : xs `sublist_of` ys → keys_of xs `sublist_of` keys_of ys.
Proof. intros Hs. unfold keys_of. by do 2 apply fmap_sublist. Qed.

Lemma kept_keys_in clk t (os : list cell) k :
  k ∈ keys_of (kept c_exp clk t os) → k ∈ keys_of os.
Proof. apply sublist_subseteq, keys_of_sublist, kept_sublist. Qed.

Lemma kept_keys_lookup clk (os : list cell) : ∀ t i c,
  NoDup (keys_of os) → os !! i = Some c →
  key (c_entry c) ∈ keys_of (kept c_exp clk t os) ↔ After (clk (t + i)%nat) (c_exp c) = false.
Proof.
  induction os as [|o os IH]; intros t i c Hnd Hi; [done|].
  change (keys_of (o :: os)) with (key (c_entry o) :: keys_of os) in Hnd.
  apply NoDup_cons in Hnd as [Ho Hnd].
  destruct i as [|i]; simpl in Hi.
  - injection Hi as ->. rewrite Nat.add_0_r. cbn [kept].
    destruct (After (clk t) (c_exp c)).
    + split; [|done]. intros Hin. by apply kept_keys_in in Hin.
    + split; [done|]. intros _. apply list_elem_of_here.
  - replace (t + S i)%nat with (S t + i)%nat by lia.
    rewrite <- (IH (S t) i c Hnd Hi).
    assert (Hne : key (c_entry c) ≠ key (c_entry o)).
    { intros Heq. apply Ho. rewrite <- Heq. unfold keys_of. rewrite <- list_fmap_compose.
      apply (list_elem_of_fmap_2 (key ∘ c_entry)). by eapply list_elem_of_lookup_2. }
    cbn [kept]. destruct (After (clk t) (c_exp o)); [done|].
    change (keys_of (o :: kept c_exp clk (S t) os))
      with (key (c_entry o) :: keys_of (kept c_exp clk (S t) os)).
    rewrite elem_of_cons. tauto.
Qed.

Lemma reaped_keys clk (os : list cell) : ∀ t,
  NoDup (keys_of os) →
  keys_of (reaped c_exp clk t os) =
    filter (λ k, k ∉ keys_of (kept c_exp clk t os)) (keys_of os).
Proof.
  induction os as [|o os IH]; intros t Hnd; [done|].
  change (keys_of (o :: os)) with (key (c_entry o) :: keys_of os) in Hnd |- *.
  apply NoDup_cons in Hnd as [Ho Hnd].
  cbn [kept reaped]. destruct (After (clk t) (c_exp o)).
  - change (keys_of (o :: reaped c_exp clk (S t) os))
      with (key (c_entry o) :: keys_of (reaped c_exp clk (S t) os)).
    rewrite filter_cons_True; [by rewrite IH|].
    intros Hin. by apply kept_keys_in in Hin.
  - change (keys_of (o :: kept c_exp clk (S t) os))
      with (key (c_entry o) :: keys_of (kept c_exp clk (S t) os)).
    rewrite filter_cons_False by (intros Hn; apply Hn, list_elem_of_here).
    rewrite IH by done. apply filter_ext_in. intros x Hx.
    rewrite not_elem_of_cons. split; [|tauto]. intros Hn. split; [|done].
    by intros ->.
Qed.

(** C6, as amended: [DeleteExpired] scans the keys the cache holds, which
    are those of [Keys], oldest first, and reads the clock once for each; it
    removes exactly the keys whose entry has expired at the reading taken for
    it (so exactly those expired at the time of the call when the clock
    stands still during the call), calls [onEvicted] on each of them in the
    order of the scan, and leaves the other keys in the cache, in their
    order and with their entries. *)
Theorem deleteExpired_sweep w :
  reachable zeroK zeroV w →
  ∃ ks w' ks',
    Keys w = Some (ks, w) ∧
    holds_keys w ks ∧ NoDup ks ∧
    dom (items (cache w)) = list_to_set ks ∧
    DeleteExpired w = Some (tt, w') ∧
    Keys w' = Some (ks', w') ∧
    holds_keys w' ks' ∧
    dom (items (cache w')) = list_to_set ks' ∧
    ks' `sublist_of` ks ∧
    (∀ i k, ks !! i = Some k →
       k ∈ ks' ↔ ∃ en, entry_of w k = Some en ∧
                        After (clock w (ticks w + i)%nat) (expiresAt en) = false) ∧
    (∀ now, (∀ i, (i < length ks)%nat → clock w (ticks w + i)%nat = now) →
       ∀ k, k ∈ ks →
         k ∈ ks' ↔ ∃ en, entry_of w k = Some en ∧ After now (expiresAt en) = false) ∧
    (∀ k, k ∈ ks' → entry_of w' k = entry_of w k) ∧
    evlog w' = evlog w ++
      (if onEvicted (cache w)
       then omap (event_of w) (filter (λ k, k ∉ ks') ks) else []) ∧
    ticks w' = (ticks w + length ks)%nat.
Proof.
  intros Hr. destruct (reachable_rep _ _ _ Hr) as (cs & Hrep & _).
  destruct (deleteExpired_spec _ _ Hrep) as (w' & Hrun & Hrep' & Hev & Hcfg & Ht).
  destruct (holds_keys_of _ _ Hrep) as (Hh & Hndk & Hdom & _).
  destruct (holds_keys_of _ _ Hrep') as (Hh' & _ & Hdom' & _).
  set (os := reverse cs) in *.
  set (ko := kept c_exp (clock w) (ticks w) os) in *.
  pose proof (rep_cells_NoDup _ _ Hrep) as Hnd.
  assert (Hks : reverse (keys_of cs) = keys_of os) by apply keys_of_reverse.
  assert (Hks' : reverse (keys_of (reverse ko)) = keys_of ko).
  { by rewrite keys_of_reverse, reverse_involutive. }
  rewrite Hks in Hh, Hndk, Hdom. rewrite Hks' in Hh', Hdom'.
  assert (Hndo : NoDup (keys_of os)) by (by rewrite <- Hks, reverse_Permutation).
  assert (Hidx : ∀ i k, keys_of os !! i = Some k →
            k ∈ keys_of ko ↔ ∃ en, entry_of w k = Some en ∧
              After (clock w (ticks w + i)%nat) (expiresAt en) = false).
  { intros i k Hi. unfold keys_of in Hi. rewrite <- list_fmap_compose in Hi.
    apply list_lookup_fmap_Some in Hi as (c & -> & Hc). simpl.
    assert (Hin : c ∈ cs).
    { apply elem_of_reverse. by eapply list_elem_of_lookup_2. }
    rewrite (rep_cells_entry_of _ _ c Hrep Hin).
    subst ko. rewrite (kept_keys_lookup (clock w) os (ticks w) i c Hndo Hc). split.
    - intros Hexp. by exists (c_entry c).
    - by intros (en & [= <-] & Hexp). }
  exists (keys_of os), w', (keys_of ko).
  split_and!.
  - unfold Keys. by rewrite (keys_spec _ _ Hrep), Hks.
  - exact Hh.
  - exact Hndk.
  - exact Hdom.
  - done.
  - unfold Keys. by rewrite (keys_spec _ _ Hrep'), Hks'.
  - exact Hh'.
  - exact Hdom'.
  - apply keys_of_sublist, kept_sublist.
  - exact Hidx.
  - intros now Hfrozen k [i Hi]%list_elem_of_lookup.
    rewrite <- (Hfrozen i) by (by eapply lookup_lt_Some). by apply Hidx.
  - intros k Hk. apply (rep_cells_entry_of_sub _ _ cs (reverse ko)); try done.
    + intros x Hx. rewrite elem_of_reverse in Hx.
      apply (sublist_subseteq _ _ (kept_sublist c_exp (clock w) os (ticks w))) in Hx.
      unfold os in Hx. by rewrite elem_of_reverse in Hx.
    + by rewrite <- keys_of_reverse, elem_of_reverse.
  - rewrite Hev. f_equal. unfold fired_all. destruct (onEvicted (cache w)); [|done].
    subst ko. rewrite <- (reaped_keys (clock w) os (ticks w) Hndo).
    symmetry. apply (omap_event_of _ cs); [done|].
    intros x Hx.
    apply (sublist_subseteq _ _ (reaped_sublist c_exp (clock w) os (ticks w))) in Hx.
    unfold os in Hx. by rewrite elem_of_reverse in Hx.
  - rewrite Ht. f_equal. unfold os, keys_of. by rewrite !length_fmap, length_reverse.
Qed.

End sweep_claim.

Section callback_claim.

Context {K : Type} `{Countable K} {V : Type}.
Variables (zeroK : K) (zeroV : V).

Local Abbreviation entry := (expirableEntry (K:=K) (V:=V)).
Local Abbreviation world := (world (K:=K) (V:=V)).
Local Abbreviation cell := (loc * loc * entry)%type.

Implicit Types (w : world) (cs xs ys : list cell) (c : cell) (k : K) (v : V).

Lemma keys_of_elem cs c : c ∈ cs → key (c_entry c) ∈ keys_of cs.
Proof.
  intros Hc. unfold keys_of. rewrite <- list_fmap_compose.
  by apply (list_elem_of_fmap_2 (key ∘ c_entry)).
Qed.

Lemma keys_of_elem_inv cs k : k ∈ keys_of cs → ∃ c, c ∈ cs ∧ key (c_entry c) = k.
Proof.
  intros (xs & c & ys & -> & Hk)%keys_of_split. exists c. split; [|done].
  apply elem_of_app. right. apply list_elem_of_here.
Qed.

(** C8: whatever the call, when [onEvicted] is set it is called exactly once
    for each key that the call takes out of the map, with that key and the
    value its entry held, and for nothing else: a call that takes no key out
    (a [Remove] of an absent key, a [Purge] of an empty cache) calls nothing;
    without [onEvicted] nothing is recorded. *)
Theorem eviction_callback_complete w (o : op) :
  reachable zeroK zeroV w →
  ∃ w' evs,
    exec zeroK zeroV o w = Some (tt, w') ∧
    evlog w' = evlog w ++ evs ∧
    if onEvicted (cache w) then
      NoDup evs.*1 ∧
      ∀ k v, (k, v) ∈ evs ↔
             k ∈ dom (items (cache w)) ∧ k ∉ dom (items (cache w')) ∧
             value <$> entry_of w k = Some v
    else evs = [].
Proof.
  intros Hr. destruct (reachable_rep _ _ _ Hr) as (cs & Hrep & Hcap).
  destruct (exec_step zeroK zeroV w cs o Hrep Hcap)
    as (w' & cs' & Hrun & Hrep' & _ & (evs & stay & gone & Hev & Hevs & Hperm & Hkeys) & _).
  exists w', evs. split; [done|]. split; [done|].
  unfold fired_all in Hevs. destruct (onEvicted (cache w)); [|by apply Permutation_nil_r in Hevs].
  pose proof (rep_cells_NoDup _ _ Hrep) as Hnd.
  assert (Hk : keys_of cs ≡ₚ keys_of stay ++ keys_of gone).
  { rewrite <- keys_of_app. unfold keys_of. by rewrite Hperm. }
  rewrite Hk in Hnd. apply NoDup_app in Hnd as (_ & Hdisj & Hndg).
  assert (Hfst : evs.*1 ≡ₚ keys_of gone).
  { rewrite Hevs. unfold keys_of. rewrite <- !list_fmap_compose. done. }
  split; [by rewrite Hfst|].
  assert (Hgone : ∀ c, c ∈ gone → c ∈ cs).
  { intros c Hc. rewrite Hperm. apply elem_of_app. by right. }
  assert (Hleft : ∀ c, c ∈ gone → key (c_entry c) ∉ keys_of cs').
  { intros c Hc Hin.
    assert (key (c_entry c) ∉ keys_of stay).
    { intros ?. eapply Hdisj; [done|]. by apply keys_of_elem. }
    destruct Hkeys as [Hk'|(k0 & Hk0 & Hk')]; rewrite Hk' in Hin; [done|].
    apply elem_of_cons in Hin as [Heq|?]; [|done].
    apply Hk0. rewrite <- Heq. by apply keys_of_elem, Hgone. }
  intros k v. rewrite (rep_cells_dom _ _ Hrep), (rep_cells_dom _ _ Hrep').
  rewrite !elem_of_list_to_set. rewrite Hevs.
  rewrite <- list_fmap_compose, list_elem_of_fmap. split.
  - intros (c & [= -> ->] & Hc). split_and!.
    + by apply keys_of_elem, Hgone.
    + by apply Hleft.
    + by rewrite (rep_cells_entry_of _ _ c Hrep) by (by apply Hgone).
  - intros (Hin & Hout & Hval).
    destruct (keys_of_elem_inv _ _ Hin) as (c & Hc & <-).
    rewrite (rep_cells_entry_of _ _ c Hrep Hc) in Hval. injection Hval as <-.
    exists c. split; [done|].
    rewrite Hperm in Hc. apply elem_of_app in Hc as [Hc|Hc]; [|done].
    exfalso. apply Hout.
    destruct Hkeys as [Hk'|(k0 & Hk0 & Hk')]; rewrite Hk'.
    + by apply keys_of_elem.
    + by apply list_elem_of_further, keys_of_elem.
Qed.

End callback_claim.

(** * The theorems at work on the examples *)

Lemma bijection_invariant_witness :
  reachable 0%nat 0%nat ex_cache ∧
  ∃ ns, in_mem (walk (evictList (cache ex_cache))) ex_cache = Some (ns, ex_cache) ∧
        size (items (cache ex_cache)) = length ns.
Proof.
  assert (Hr : reachable 0%nat 0%nat ex_cache).
  { exists ex_world, 2, true, 0, 0, ex_ops. vm_compute. reflexivity. }
  split; [exact Hr|].
  destruct (bijection_invariant 0%nat 0%nat ex_cache Hr)
    as (ns & ks & Hw & _ & _ & _ & _ & _ & _ & _ & _ & Hs & _).
  exists ns. split; [exact Hw|exact Hs].
Defined.

Lemma capacity_invariant_witness :
  0 < 2 ∧
  reached_from 0%nat 0%nat ex_world 2 true 0 0 ex_ops ex_cache ∧
  ∃ b w', Add 4%nat 40%nat ex_cache = Some (b, w') ∧
          Z.of_nat (size (items (cache w'))) ≤ size_ (cache w').
Proof.
  assert (H2 : 0 < 2) by lia.
  assert (Hr : reached_from 0%nat 0%nat ex_world 2 true 0 0 ex_ops ex_cache).
  { vm_compute. reflexivity. }
  split; [exact H2|]. split; [exact Hr|].
  destruct (capacity_invariant 0%nat 0%nat ex_world ex_cache 2 true 0 0 ex_ops
              4%nat 40%nat 0 (Add 4%nat 40%nat) H2 Hr (or_introl eq_refl))
    as (b & w' & n & evs & Hrun & _ & _ & _ & Hsz & _).
  exists b, w'. split; [exact Hrun|exact Hsz].
Defined.


Lemma refresh_semantics_witness :
  reachable 0%nat 0%nat ex_cache ∧
  is_Some (items (cache ex_cache) !! 1%nat) ∧
  ∃ w', AddWithTTL 1%nat 11%nat 5 ex_cache = Some (false, w') ∧
        entry_of w' 1%nat = Some (mkEntry 1%nat 11%nat (clock ex_cache (ticks ex_cache) + 5)) ∧
        evlog w' = evlog ex_cache.
Proof.
  assert (Hr : reachable 0%nat 0%nat ex_cache).
  { exists ex_world, 2, true, 0, 0, ex_ops. vm_compute. reflexivity. }
  assert (Hin : is_Some (items (cache ex_cache) !! 1%nat)).
  { eexists. vm_compute. reflexivity. }
  split; [exact Hr|]. split; [exact Hin|].
  destruct (refresh_semantics 0%nat 0%nat ex_cache 1%nat 11%nat 5
              (AddWithTTL 1%nat 11%nat 5) Hr Hin (or_intror eq_refl))
    as (w' & ks & n & Hrun & _ & _ & Hen & _ & _ & Hev & _).
  exists w'. split; [exact Hrun|]. split; [exact Hen|exact Hev].
Defined.

Lemma expired_get_keeps_witness :
  reachable 0%nat 0%nat ex_stale ∧
  entry_of ex_stale 1%nat = Some (mkEntry 1%nat 10%nat (-5)) ∧
  -5 < clock ex_stale (ticks ex_stale) ∧
  Get 0%nat 1%nat ex_stale = Some ((0%nat, false), ticked ex_stale) ∧
  Contains 1%nat (ticked ex_stale) = Some (true, ticked ex_stale).
Proof.
  assert (Hr : reachable 0%nat 0%nat ex_stale).
  { exists ex_world, 2, true, 0, 0, ex_stale_ops. vm_compute. reflexivity. }
  assert (Hen : entry_of ex_stale 1%nat = Some (mkEntry 1%nat 10%nat (-5))).
  { vm_compute. reflexivity. }
  assert (Hexp : expiresAt (mkEntry 1%nat 10%nat (-5)) < clock ex_stale (ticks ex_stale)).
  { vm_compute. reflexivity. }
  split; [exact Hr|]. split; [exact Hen|]. split; [exact Hexp|].
  destruct (expired_get_keeps 0%nat 0%nat ex_stale 1%nat (mkEntry 1%nat 10%nat (-5))
              Hr Hen Hexp) as (n & _ & Hget & Hc & _).
  split; [exact Hget|exact Hc].
Defined.

Lemma deleteExpired_sweep_witness :
  reachable 0%nat 0%nat ex_stale ∧
  ∃ ks w' ks',
    Keys ex_stale = Some (ks, ex_stale) ∧
    dom (items (cache ex_stale)) = list_to_set ks ∧
    DeleteExpired ex_stale = Some (tt, w') ∧
    Keys w' = Some (ks', w') ∧
    dom (items (cache w')) = list_to_set ks' ∧
    ks' `sublist_of` ks.
Proof.
  assert (Hr : reachable 0%nat 0%nat ex_stale).
  { exists ex_world, 2, true, 0, 0, ex_stale_ops. vm_compute. reflexivity. }
  split; [exact Hr|].
  destruct (deleteExpired_sweep 0%nat 0%nat ex_stale Hr)
    as (ks & w' & ks' & Hk & _ & _ & Hdom & Hrun & Hk' & _ & Hdom' & Hsub & _).
  exists ks, w', ks'. split; [exact Hk|]. split; [exact Hdom|]. split; [exact Hrun|].
  split; [exact Hk'|]. split; [exact Hdom'|exact Hsub].
Defined.

(** C6, as the spec words it, fails: in [ex_twins] the clock reads 2 at the
    time of the call and both keys expire at 2, so neither has expired; the
    sweep keeps key 1, read at 2, and removes key 2, read at 3. *)
Lemma deleteExpired_sweep_counterexample :
  reachable 0%nat 0%nat ex_twins ∧
  DeleteExpired ex_twins = Some (tt, ex_twins_swept) ∧
  clock ex_twins (ticks ex_twins) = 2 ∧
  entry_of ex_twins 1%nat = Some (mkEntry 1%nat 10%nat 2) ∧
  entry_of ex_twins 2%nat = Some (mkEntry 2%nat 20%nat 2) ∧
  After (clock ex_twins (ticks ex_twins)) 2 = false ∧
  items (cache ex_twins_swept) !! 1%nat = Some (Some 2%positive) ∧
  items (cache ex_twins_swept) !! 2%nat = None ∧
  ¬ swept_as_of_call ex_twins ex_twins_swept.
Proof.
  assert (Hen : entry_of ex_twins 2%nat = Some (mkEntry 2%nat 20%nat 2)).
  { vm_compute. reflexivity. }
  assert (Hgone : items (cache ex_twins_swept) !! 2%nat = None).
  { vm_compute. reflexivity. }
  assert (Hlive : After (clock ex_twins (ticks ex_twins)) 2 = false).
  { vm_compute. reflexivity. }
  split.
  { exists ex_world, 2, true, 0, 0, ex_twins_ops. vm_compute. reflexivity. }
  split; [vm_compute; reflexivity|].
  split; [vm_compute; reflexivity|].
  split; [vm_compute; reflexivity|].
  split; [exact Hen|].
  split; [exact Hlive|].
  split; [vm_compute; reflexivity|].
  split; [exact Hgone|].
  intros Hs. destruct (Hs 2%nat (mkEntry 2%nat 20%nat 2) Hen) as [Hs1 _].
  specialize (Hs1 Hgone). cbn [expiresAt] in Hs1.
  rewrite Hlive in Hs1. discriminate Hs1.
Qed.

Lemma resize_evicts_oldest_witness :
  reachable 0%nat 0%nat ex_cache ∧
  Resize 0 ex_cache = Some (0, ex_cache) ∧
  ∃ m w', LRU.Len ex_cache = Some (m, ex_cache) ∧
          m = Z.of_nat (size (items (cache ex_cache))) ∧
          Resize 1 ex_cache = Some (Z.max (m - 1) 0, w') ∧ size_ (cache w') = 1 ∧
          Z.of_nat (size (items (cache w'))) = m - Z.max (m - 1) 0.
Proof.
  assert (Hr : reachable 0%nat 0%nat ex_cache).
  { exists ex_world, 2, true, 0, 0, ex_ops. vm_compute. reflexivity. }
  assert (H0 : 0 ≤ 0) by lia.
  assert (H1 : 0 < 1) by lia.
  split; [exact Hr|]. split.
  - exact (proj1 (resize_evicts_oldest 0%nat 0%nat ex_cache 0 Hr) H0).
  - destruct (proj2 (resize_evicts_oldest 0%nat 0%nat ex_cache 1 Hr) H1)
      as (m & ks & w' & Hlen & _ & Hm & _ & _ & _ & _ & Hrun & Hs & _ & _ & _ & Hsz & _).
    exists m, w'. split; [exact Hlen|]. split; [exact Hm|]. split; [exact Hrun|].
    split; [exact Hs|exact Hsz].
Defined.

Lemma eviction_callback_complete_witness :
  reachable 0%nat 0%nat ex_cache ∧
  ∃ w' evs,
    exec 0%nat 0%nat (OpRemove 1%nat) ex_cache = Some (tt, w') ∧
    evlog w' = evlog ex_cache ++ evs.
Proof.
  assert (Hr : reachable 0%nat 0%nat ex_cache).
  { exists ex_world, 2, true, 0, 0, ex_ops. vm_compute. reflexivity. }
  split; [exact Hr|].
  destruct (eviction_callback_complete 0%nat 0%nat ex_cache (OpRemove 1%nat) Hr)
    as (w' & evs & Hrun & Hev & _).
  exists w', evs. split; [exact Hrun|exact Hev].
Defined.

Lemma foreign_node_noop_witness :
  elems ex_heap !! 3%positive = Some (mkElement (Some 2%positive) (Some 2%positive)
                                        (Some 2%positive) nil) ∧
  Some 2%positive ≠ Some 1%positive ∧
  is_Some (elems ex_heap !! 4%positive) ∧
  LinkedList.Remove (Some 1%positive) (Some 3%positive) ex_heap = Some (nil, ex_heap) ∧
  MoveToFront (Some 1%positive) (Some 3%positive) ex_heap = Some (tt, ex_heap) ∧
  MoveBefore (Some 1%positive) (Some 4%positive) (Some 3%positive) ex_heap = Some (tt, ex_heap) ∧
  InsertAfter (Some 1%positive) nil (Some 3%positive) ex_heap = Some (nil, ex_heap).
Proof.
  assert (He : elems ex_heap !! 3%positive
               = Some (mkElement (Some 2%positive) (Some 2%positive) (Some 2%positive) nil)).
  { vm_compute. reflexivity. }
  assert (Hl : list_ (mkElement (Some 2%positive) (Some 2%positive) (Some 2%positive) nil)
               ≠ Some 1%positive).
  { simpl. discriminate. }
  assert (Hx : is_Some (elems ex_heap !! 4%positive)).
  { eexists. vm_compute. reflexivity. }
  split; [exact He|]. split; [exact Hl|]. split; [exact Hx|].
  destruct (foreign_node_noop ex_heap (Some 1%positive) 3%positive 4%positive _ nil nil
              He Hl Hx) as (Hrem & Hmf & _ & _ & _ & Hmb & _ & _ & Hia).
  split; [exact Hrem|]. split; [exact Hmf|]. split; [exact Hmb|exact Hia].
Defined.

Lemma nonpositive_ttl_kept_witness :
  reachable 0%nat 0%nat ex_cache ∧ -5 ≤ 0 ∧
  ∃ b w1,
    AddWithTTL 1%nat 10%nat (-5) ex_cache = Some (b, w1) ∧
    entry_of w1 1%nat =
      Some (mkEntry 1%nat 10%nat (clock ex_cache (ticks ex_cache) + -5)).
Proof.
  assert (Hr : reachable 0%nat 0%nat ex_cache).
  { exists ex_world, 2, true, 0, 0, ex_ops. vm_compute. reflexivity. }
  assert (Ht : -5 ≤ 0) by lia.
  split; [exact Hr|]. split; [exact Ht|].
  destruct (nonpositive_ttl_kept 0%nat 0%nat ex_cache 1%nat 10%nat (-5) Hr Ht)
    as (_ & b & w1 & Hrun & Hen & _).
  exists b, w1. split; [exact Hrun|exact Hen].
Defined.
